(** * A type-erased callable wrapper: [Function<Ret(Args...)>]

    Shallow embedding of [src/functional/my_function_4.cc]: the erased
    interface [detail::function_impl_base], its three [detail::func_impl]
    specialisations (function pointer, functor, pointer to member function)
    and the public handle [Function], which owns one adapter through a
    [std::unique_ptr].

    The program state has three parts, kept apart because the C++ types keep
    them apart:
    - [handles]: the [Function] objects of the program, by name, each holding
      its [impl_base_] (null or the address of an adapter);
    - [heap]: the adapters allocated by [new] / [std::make_unique];
    - [mem]: the objects of the calling code (what reference and pointer
      arguments designate), which payload bodies read and write.

    Payload classes are taken to be regular value types: copy- and
    move-constructing a payload gives an equal value (the implicit
    constructors of [LargeFunctor], of closures and of pointers).
    Assertions are enabled ([NDEBUG] is not defined), as [main] expects. *)

From stdpp Require Import gmap strings.

Definition var := string.   (* names of Function objects *)
Definition addr := nat.     (* addresses of heap-allocated adapters *)
Definition loc := nat.      (* addresses of caller-side objects *)

Section Function.
(** [V]: values of caller-side objects; [Exn]: exception values;
    [Ret(Args...)]: the call signature of the handle. *)
Context {V Exn Args Ret : Type}.

(** What a call of a payload yields: a return value or an exception. *)
Inductive presult :=
| PReturn (r : Ret)
| PThrow (e : Exn).

(** [Ret( * )(Args...)]: a plain function; it may read and write the
    caller's objects (by-reference arguments are locations in [Args]). *)
Definition fn_ptr : Type := Args → gmap loc V → presult * gmap loc V.

(** A functor class: its [operator()] acts on the functor object (its
    members, a value of [V]) and on the caller's objects. *)
Record functor := { fcall : V → Args → gmap loc V → presult * V * gmap loc V }.

(** The first argument handed to a wrapped member function: a pointer to
    the receiver ([Class*]), or the receiver itself as an lvalue ([Class&]),
    which designates the caller's object at [l].  A receiver passed as an
    rvalue ([Class], [Class&&]) would be moved from; it is not modelled. *)
Inductive receiver :=
| RecvPtr (p : loc)
| RecvObj (l : loc).

(** [Params]: the parameters of member functions callable with [Args];
    [deduce_call]: the deduction of [call(ClassType obj, Params&&... args)]
    against the pack [Args] (first argument, rest); [None] when the
    signature has no leading receiver. *)
Context {Params : Type} (deduce_call : Args → option (receiver * Params)).

(** [Member Class::*]: a member function, run on the object at [this]. *)
Definition mem_fn_ptr : Type := loc → Params → gmap loc V → presult * gmap loc V.

(** A payload as the user supplies it ([Callable]). *)
Inductive callable :=
| FnPtr (f : fn_ptr)
| Functor (F : functor) (obj : V)
| MemFn (pm : mem_fn_ptr).

(** ** [detail::func_impl]: the three specialisations *)
Inductive func_impl :=
| func_impl_fn (callable_ : fn_ptr)
| func_impl_functor (F : functor) (callable_ : V)
| func_impl_member (callable_ : mem_fn_ptr).

(** [func_impl<call_signature, Callable>(std::move(cb))]: the
    specialisation is selected by the shape of [Callable]. *)
Definition make_impl (cb : callable) : func_impl :=
  match cb with
  | FnPtr f => func_impl_fn f
  | Functor F obj => func_impl_functor F obj
  | MemFn pm => func_impl_member pm
  end.

(** [func_impl(const func_impl&) = default]: member-wise copy. *)
Definition func_impl_copy (impl : func_impl) : func_impl :=
  match impl with
  | func_impl_fn f => func_impl_fn f
  | func_impl_functor F obj => func_impl_functor F obj
  | func_impl_member pm => func_impl_member pm
  end.

(** [call(ClassType obj, Params&&... args)] of the member specialisation:
    [obj] is a by-value parameter.  For a pointer it is a copy of the
    pointer; for a class object (an lvalue, [Class&]) it is a new object
    copy-constructed from the first argument, alive until [call] returns (or
    unwinds).
    [std::mem_fn(callable_)(obj, args...)] then runs the member function on
    [*obj], resp. on [obj].  [None]: undefined behaviour (the first argument
    is a dangling reference). *)
Definition call (callable_ : mem_fn_ptr) (recv : receiver) (args : Params)
    (m : gmap loc V) : option (presult * gmap loc V) :=
  match recv with
  | RecvPtr p => Some (callable_ p args m)
  | RecvObj l =>
      match m !! l with
      | None => None
      | Some v =>
          let obj := fresh (dom m) in
          let '(r, m') := callable_ obj args (<[obj := v]> m) in
          Some (r, delete obj m')
      end
  end.

(** [Ret operator()(Args&&... args)] of an adapter: what it yields, the
    adapter afterwards (a functor may change its own members) and the
    caller's objects afterwards. *)
Definition impl_call (impl : func_impl) (args : Args) (m : gmap loc V)
    : option (presult * func_impl * gmap loc V) :=
  match impl with
  | func_impl_fn callable_ =>
      let '(r, m') := callable_ args m in Some (r, impl, m')
  | func_impl_functor F callable_ =>
      let '(r, obj', m') := fcall F callable_ args m in
      Some (r, func_impl_functor F obj', m')
  | func_impl_member callable_ =>
      match deduce_call args with
      | None => None
      | Some (recv, params) =>
          match call callable_ recv params m with
          | None => None
          | Some (r, m') => Some (r, impl, m')
          end
      end
  end.

(** ** Program state and the monad of operations *)
Record state := State {
  handles : gmap var (option addr);
  heap : gmap addr func_impl;
  mem : gmap loc V
}.

(** How an operation ends: normally, with an exception propagating to the
    caller, by a failed [assert] (the program is aborted), or with
    undefined behaviour (a null or dangling pointer is dereferenced). *)
Inductive outcome (A : Type) :=
| Normal (a : A) (σ : state)
| Raised (e : Exn) (σ : state)
| Aborted
| Undefined.
Global Arguments Normal {A}.
Global Arguments Raised {A}.
Global Arguments Aborted {A}.
Global Arguments Undefined {A}.

Definition M (A : Type) : Type := state → outcome A.

#[global] Instance M_ret : MRet M := λ A a σ, Normal a σ.
#[global] Instance M_bind : MBind M := λ A B k c σ,
  match c σ with
  | Normal a σ' => k a σ'
  | Raised e σ' => Raised e σ'
  | Aborted => Aborted
  | Undefined => Undefined
  end.

Definition abort {A} : M A := λ _, Aborted.
Definition undefined {A} : M A := λ _, Undefined.

(** ** [std::unique_ptr<implementation> impl_base_] of the handle [x] *)
Definition get_impl_base (x : var) : M (option addr) := λ σ,
  match handles σ !! x with
  | Some p => Normal p σ
  | None => Undefined
  end.

Definition set_impl_base (x : var) (p : option addr) : M unit := λ σ,
  Normal () (State (<[x := p]> (handles σ)) (heap σ) (mem σ)).

(** [new func_impl(...)]: a fresh address. *)
Definition new_impl (impl : func_impl) : M addr := λ σ,
  let a := fresh (dom (heap σ)) in
  Normal a (State (handles σ) (<[a := impl]> (heap σ)) (mem σ)).

(** [delete p] through the virtual destructor. *)
Definition delete_impl (a : addr) : M unit := λ σ,
  match heap σ !! a with
  | Some _ => Normal () (State (handles σ) (delete a (heap σ)) (mem σ))
  | None => Undefined
  end.

(** [impl_base_.reset(p)]: store [p], then delete the old adapter. *)
Definition unique_ptr_reset (x : var) (p : option addr) : M unit :=
  old ← get_impl_base x;
  set_impl_base x p;;
  match old with
  | Some a => delete_impl a
  | None => mret ()
  end.

(** [impl_base_.release()]: give up ownership. *)
Definition unique_ptr_release (x : var) : M (option addr) :=
  old ← get_impl_base x;
  set_impl_base x None;;
  mret old.

(** [p->clone()]: [new func_impl( *this)]. *)
Definition clone (a : addr) : M addr := λ σ,
  match heap σ !! a with
  | Some impl => new_impl (func_impl_copy impl) σ
  | None => Undefined
  end.

(** [( *p)(args...)]: the virtual call. *)
Definition virtual_call (a : addr) (args : Args) : M Ret := λ σ,
  match heap σ !! a with
  | None => Undefined
  | Some impl =>
      match impl_call impl args (mem σ) with
      | None => Undefined
      | Some (PReturn r, impl', m') =>
          Normal r (State (handles σ) (<[a := impl']> (heap σ)) m')
      | Some (PThrow e, impl', m') =>
          Raised e (State (handles σ) (<[a := impl']> (heap σ)) m')
      end
  end.

(** ** [Function<Ret(Args...)>] *)

(** [Function() = default]: [impl_base_ = nullptr]. *)
Definition default_construct (x : var) : M unit := set_impl_base x None.

(** [Function(const Function& other)]. *)
Definition copy_construct (x other : var) : M unit :=
  set_impl_base x None;;
  p ← get_impl_base other;
  match p with
  | None => undefined              (* other.impl_base_->clone() on null *)
  | Some a => a' ← clone a; unique_ptr_reset x (Some a')
  end.

(** [~Function()]: the unique_ptr deletes what it owns. *)
Definition end_of_life (x : var) : M unit := λ σ,
  Normal () (State (delete x (handles σ)) (heap σ) (mem σ)).

Definition destroy (x : var) : M unit :=
  p ← get_impl_base x;
  (match p with Some a => delete_impl a | None => mret () end);;
  end_of_life x.

(** The body of [operator=(Function other)], [other] being the parameter
    object. *)
Definition assign_body (x other : var) : M unit :=
  p ← unique_ptr_release other;
  unique_ptr_reset x p.

(** [x = y] for an lvalue [y]: the parameter [other] is copy-constructed
    from [y], the body runs, [other] is destroyed.  The parameter is an
    object of its own, under a name no other object has. *)
Definition copy_assign_with (other x y : var) : M unit :=
  copy_construct other y;; assign_body x other;; destroy other.

Definition copy_assign (x y : var) : M unit := λ σ,
  copy_assign_with (fresh (dom (handles σ))) x y σ.

(** [operator=(Callable cb)]: move-assignment from [make_unique]. *)
Definition assign (x : var) (cb : callable) : M unit :=
  a ← new_impl (make_impl cb);
  unique_ptr_reset x (Some a).

(** [Function(Callable f)]. *)
Definition construct (x : var) (f : callable) : M unit :=
  a ← new_impl (make_impl f);
  set_impl_base x (Some a).

(** [Ret operator()(Args&&... args)]. *)
Definition invoke (x : var) (args : Args) : M Ret :=
  p ← get_impl_base x;
  match p with
  | None => abort                  (* assert (impl_base_.get()) *)
  | Some a => virtual_call a args
  end.

(** [explicit operator bool() const noexcept]. *)
Definition operator_bool (x : var) : M bool :=
  p ← get_impl_base x;
  mret (bool_decide (p ≠ None)).

End Function.

(** * Observations used by the statements *)

Section Observations.
Context {V Exn Args Ret Params : Type}.
#[local] Abbreviation state := (@state V Exn Args Ret Params).
#[local] Abbreviation outcome := (@outcome V Exn Args Ret Params).
#[local] Abbreviation func_impl := (@func_impl V Exn Args Ret Params).
#[local] Abbreviation presult := (@presult Exn Ret).

(** What the caller sees of a call: the value returned or the exception
    raised, and its own objects afterwards. *)
Definition observe (o : outcome Ret) : option (presult * gmap loc V) :=
  match o with
  | Normal r σ => Some (PReturn r, mem σ)
  | Raised e σ => Some (PThrow e, mem σ)
  | Aborted | Undefined => None
  end.

(** The result alone. *)
Definition result_of (o : outcome Ret) : option presult :=
  fst <$> observe o.

(** An assignment [*l = v] by the calling code. *)
Definition store (l : loc) (v : V) (σ : state) : state :=
  State (handles σ) (heap σ) (<[l := v]> (mem σ)).

(** No two handles hold the same adapter, and no handle dangles. *)
Definition exclusive (σ : state) : Prop :=
  ∀ x y a, handles σ !! x = Some (Some a) → handles σ !! y = Some (Some a) → x = y.

Definition no_dangling (σ : state) : Prop :=
  ∀ x a, handles σ !! x = Some (Some a) → is_Some (heap σ !! a).

Definition wf (σ : state) : Prop := exclusive σ ∧ no_dangling σ.

(** The heap once the adapter owned through [p], if any, is deleted. *)
Definition free (p : option addr) (h : gmap addr func_impl) : gmap addr func_impl :=
  match p with
  | Some a => delete a h
  | None => h
  end.

(** The pointer [p] is null or points to a live adapter. *)
Definition live (p : option addr) (h : gmap addr func_impl) : Prop :=
  ∀ a, p = Some a → is_Some (h !! a).

(** [Q] holds of the value and the state whenever [c] ends normally. *)
Definition post {A} (c : M A) (σ : state) (Q : A → state → Prop) : Prop :=
  match c σ with
  | Normal v σ' => Q v σ'
  | Raised _ _ | Aborted | Undefined => True
  end.

(** A functor with owned state: what a call returns, and the members
    afterwards, depend on the members and the arguments only, not on the
    caller's objects. *)
Definition owns_its_state (F : @functor V Exn Args Ret) : Prop :=
  ∀ obj args m m', (fcall F obj args m).1 = (fcall F obj args m').1.

(** A plain function returning a fixed value [v]. *)
Definition returns_fixed (f : @fn_ptr V Exn Args Ret) (v : Ret) : Prop :=
  ∀ args m, (f args m).1 = PReturn v.

(** Calling a member function directly on its receiver: [(obj.*pm)(args...)]
    on the caller's object, resp. [(p->*pm)(args...)]. *)
Definition direct_call (pm : @mem_fn_ptr V Exn Ret Params) (recv : receiver)
    (args : Params) (m : gmap loc V) : presult * gmap loc V :=
  match recv with
  | RecvPtr p => pm p args m
  | RecvObj l => pm l args m
  end.

Context (deduce_call : Args → option (receiver * Params)).

(** The states reached from [σ] by invoking the handle [x] any number of
    times, whether the calls return or raise. *)
Inductive after_invoking (x : var) : state → state → Prop :=
| after_none σ : after_invoking x σ σ
| after_return σ args r σ1 σ2 :
    invoke deduce_call x args σ = Normal r σ1 →
    after_invoking x σ1 σ2 → after_invoking x σ σ2
| after_raise σ args e σ1 σ2 :
    invoke deduce_call x args σ = Raised e σ1 →
    after_invoking x σ1 σ2 → after_invoking x σ σ2.

(** The results of calling the handle [x] once per argument list, in order
    (the caller catches what is raised and goes on); [None] ends the run:
    the program was aborted or its behaviour is undefined. *)
Fixpoint invoke_all (x : var) (argss : list Args) (σ : state)
    : list (option presult) :=
  match argss with
  | [] => []
  | args :: rest =>
      match invoke deduce_call x args σ with
      | Normal r σ' => Some (PReturn r) :: invoke_all x rest σ'
      | Raised e σ' => Some (PThrow e) :: invoke_all x rest σ'
      | Aborted | Undefined => [None]
      end
  end.

(** The same for an adapter on its own, outside any handle. *)
Fixpoint impl_calls (impl : func_impl) (argss : list Args) (m : gmap loc V)
    : list (option presult) :=
  match argss with
  | [] => []
  | args :: rest =>
      match impl_call deduce_call impl args m with
      | Some (r, impl', m') => Some r :: impl_calls impl' rest m'
      | None => [None]
      end
  end.

(** The call of the stored payload itself, by the call expressions of the
    language and not through an adapter: [callable_(args...)] for a function
    pointer or a functor; for a member function the direct call
    [(q->*callable_)(params...)] on the object a pointer receiver points to,
    resp. [(obj.*callable_)(params...)] on [obj], the copy of the receiver
    [l] that the call is given, which lies where the next object of the
    caller goes.  [None]: there is no such call (no receiver among the
    arguments, or a receiver that does not exist). *)
Definition payload_result (impl : func_impl) (args : Args) (m : gmap loc V)
    : option presult :=
  match impl with
  | func_impl_fn f => Some (f args m).1
  | func_impl_functor F obj => Some (fcall F obj args m).1.1
  | func_impl_member pm =>
      match deduce_call args with
      | Some (RecvPtr q, params) =>
          Some (direct_call pm (RecvPtr q) params m).1
      | Some (RecvObj l, params) =>
          match m !! l with
          | Some v =>
              Some (direct_call pm (RecvObj (fresh (dom m))) params
                      (<[fresh (dom m) := v]> m)).1
          | None => None
          end
      | None => None
      end
  end.
End Observations.

(** * The demonstration code of [main] *)

Module Demo.

(** [int foo_ex1() { return 42; }] and [int foo_ex2() { return 43; }]. *)
Definition foo_ex1 : @fn_ptr Z string unit Z := λ _ m, (PReturn 42%Z, m).
Definition foo_ex2 : @fn_ptr Z string unit Z := λ _ m, (PReturn 43%Z, m).

(** An [int]: 32 bits, two's complement, from [INT_MIN] to [INT_MAX].
    Incrementing [INT_MAX] is undefined in the language; the compiled code
    wraps around to [INT_MIN], which is what [int_incr] does. *)
Definition INT_MAX : Z := 2147483647.
Definition INT_MIN : Z := -2147483648.
Definition int_incr (z : Z) : Z :=
  if (z =? INT_MAX)%Z then INT_MIN else (z + 1)%Z.

(** [void foo_void(int& val) { val++; }]: the argument is the location of
    the caller's [int]. *)
Definition foo_void : @fn_ptr Z string loc unit :=
  λ val m, (PReturn (), alter int_incr val m).

(** [struct LargeFunctor]: [operator()() const] returns the member
    [repr_]. *)
Definition LargeFunctor : @functor string string unit string :=
  {| fcall := λ repr_ _ m, (PReturn repr_, repr_, m) |}.

(** Signatures without a leading receiver take no member function. *)
Definition no_receiver {Args} : Args → option (receiver * unit) := λ _, None.

(** Signatures whose only argument is the receiver, a [Class&] or a
    [Class*]. *)
Definition receiver_only : receiver → option (receiver * unit) :=
  λ recv, Some (recv, ()).

(** A class with a mutating member function,
    [struct Counter { int n; void inc() { ++n; } };]. *)
Definition Counter_inc : @mem_fn_ptr Z string unit unit :=
  λ this _ m, (PReturn (), alter int_incr this m).

(** A member function that returns a value computed from the members,
    [int Counter::next() { return ++n; }] (called on no object it has
    no defined behaviour; it is then taken to return 0). *)
Definition Counter_next : @mem_fn_ptr Z string Z unit :=
  λ this _ m,
    match m !! this with
    | Some n => (PReturn (int_incr n), alter int_incr this m)
    | None => (PReturn 0%Z, m)
    end.

(** A member function that raises,
    [void Counter::fail() { throw "failed"; }]. *)
Definition Counter_fail : @mem_fn_ptr Z string unit unit :=
  λ this _ m, (PThrow "failed", m).

(** A payload that raises: [int thrower() { throw "boom"; }]. *)
Definition thrower : @fn_ptr Z string unit Z := λ _ m, (PThrow "boom", m).

Definition empty_state {V Exn Args Ret Params}
    : @state V Exn Args Ret Params := State ∅ ∅ ∅.

(** [{ Function<int()> f(foo_ex1); f(); }] *)
Definition block1 : M Z :=
  construct "f" (FnPtr foo_ex1);; invoke no_receiver "f" ().

(** [{ Function<void(int&)> f(foo_void); int i = 41; f(i); }], with [i] at
    location 0. *)
Definition block2 : M unit :=
  construct "f" (FnPtr foo_void);; invoke no_receiver "f" 0.

(** [{ Function<int()> f1; f1 = foo_ex1; Function<int()> f2(foo_ex2);
       f1 = f2; f1(); }] *)
Definition block3 : M Z :=
  default_construct "f1";; assign "f1" (FnPtr foo_ex1);;
  construct "f2" (FnPtr foo_ex2);;
  copy_assign "f1" "f2";;
  invoke no_receiver "f1" ().

(** [{ LargeFunctor lf; Function<std::string()> f(lf); auto s1 = f();
       lf.repr_ = "Silmarillion"; s1 = f(); }], with [lf] at location 0;
    the result is [s1] at the end. *)
Definition block5 : M string := λ σ,
  match mem σ !! 0 with
  | None => Undefined
  | Some lf =>
      (construct "f" (Functor LargeFunctor lf);;
       invoke no_receiver "f" ();;
       (λ σ, Normal () (store 0 "Silmarillion" σ));;
       invoke no_receiver "f" ()) σ
  end.

(** [{ Function<void(Counter&)> f(&Counter::inc); Counter c{0}; f(c); }],
    with [c] at location 0: the receiver is the object itself. *)
Definition block_counter_object : M unit :=
  construct "f" (MemFn Counter_inc);; invoke receiver_only "f" (RecvObj 0).

(** The same with [Function<void(Counter* )>] and [f(&c)]. *)
Definition block_counter_pointer : M unit :=
  construct "f" (MemFn Counter_inc);; invoke receiver_only "f" (RecvPtr 0).

(** The state an operation leaves behind. *)
Definition after {V Exn Args Ret Params A}
    (c : @M V Exn Args Ret Params A) (σ : state) : state :=
  match c σ with
  | Normal _ σ' | Raised _ σ' => σ'
  | Aborted | Undefined => σ
  end.

(** States of the demonstration: nothing declared; only [i == 41], resp.
    [c.n == 0], resp. [lf], at location 0. *)
Definition int_41 : @state Z string loc unit unit := State ∅ ∅ {[0 := 41%Z]}.
Definition counter_0 : @state Z string receiver unit unit :=
  State ∅ ∅ {[0 := 0%Z]}.
Definition lf_fresh : @state string string unit string unit :=
  State ∅ ∅ {[0 := "LargeFunctorString"]}.

(** [Function<int()> h, g;] *)
Definition two_empty : @state Z string unit Z unit :=
  after (default_construct "h";; default_construct "g") empty_state.

(** [Function<int()> f1; f1 = foo_ex1; Function<int()> f2(foo_ex2);] *)
Definition f1_f2 : @state Z string unit Z unit :=
  after (default_construct "f1";; assign "f1" (FnPtr foo_ex1);;
         construct "f2" (FnPtr foo_ex2)) empty_state.

(** [Function<int()> f(thrower);] *)
Definition f_thrower : @state Z string unit Z unit :=
  after (construct "f" (FnPtr thrower)) empty_state.

(** [Function<void(int&)> f(foo_void); int i = 41;] *)
Definition f_foo_void : @state Z string loc unit unit :=
  after (construct "f" (FnPtr foo_void)) int_41.

(** [Function<void(Counter&)> f(&Counter::inc); Counter c{0};] *)
Definition f_counter : @state Z string receiver unit unit :=
  after (construct "f" (MemFn Counter_inc)) counter_0.

(** [Function<int(Counter&)> f(&Counter::next); Counter c{5};] *)
Definition f_counter_next : @state Z string receiver Z unit :=
  after (construct "f" (MemFn Counter_next)) (State ∅ ∅ {[0 := 5%Z]}).

(** [Function<void(Counter&)> f(&Counter::fail); Counter c{0};] *)
Definition f_counter_fail : @state Z string receiver unit unit :=
  after (construct "f" (MemFn Counter_fail)) counter_0.

(** [LargeFunctor lf; Function<std::string()> f(lf);] *)
Definition f_large : @state string string unit string unit :=
  after (construct "f" (Functor LargeFunctor "LargeFunctorString")) lf_fresh.

End Demo.

(** * Programs over handles *)

Section Programs.
Context {V Exn Args Ret Params : Type}.
Context (deduce_call : Args → option (receiver * Params)).
#[local] Abbreviation state := (@state V Exn Args Ret Params).
#[local] Abbreviation callable := (@callable V Exn Args Ret Params).

(** Every live adapter is owned by some handle. *)
Definition no_leak (σ : state) : Prop :=
  ∀ a, is_Some (heap σ !! a) → ∃ x, handles σ !! x = Some (Some a).

(** One statement of a well-scoped program: a declaration introduces a new
    name, every other statement uses a declared one; a call may return or
    raise; the calling code may write its own objects. *)
Inductive step : state → state → Prop :=
| step_default_construct x σ σ' :
    handles σ !! x = None →
    default_construct x σ = Normal () σ' → step σ σ'
| step_construct x cb σ σ' :
    handles σ !! x = None →
    construct x cb σ = Normal () σ' → step σ σ'
| step_copy_construct x y σ σ' :
    handles σ !! x = None →
    copy_construct x y σ = Normal () σ' → step σ σ'
| step_assign x cb σ σ' :
    assign x cb σ = Normal () σ' → step σ σ'
| step_copy_assign x y σ σ' :
    is_Some (handles σ !! x) →
    copy_assign x y σ = Normal () σ' → step σ σ'
| step_invoke_return x args r σ σ' :
    invoke deduce_call x args σ = Normal r σ' → step σ σ'
| step_invoke_raise x args e σ σ' :
    invoke deduce_call x args σ = Raised e σ' → step σ σ'
| step_destroy x σ σ' :
    destroy x σ = Normal () σ' → step σ σ'
| step_store l v σ :
    step σ (store l v σ).

(** The states a program can be in, started with no handle and no adapter. *)
Definition reachable (σ : state) : Prop :=
  ∃ m, rtc step (State ∅ ∅ m) σ.

(** Calling a functor object itself once per argument list, in order:
    [obj(args...)], the object keeping its members from call to call. *)
Fixpoint functor_calls (F : @functor V Exn Args Ret) (obj : V)
    (argss : list Args) (m : gmap loc V) : list (@presult Exn Ret) :=
  match argss with
  | [] => []
  | args :: rest =>
      let '(r, obj', m') := fcall F obj args m in
      r :: functor_calls F obj' rest m'
  end.

(** A member function that writes no object but its receiver. *)
Definition writes_only_receiver (pm : @mem_fn_ptr V Exn Ret Params) : Prop :=
  ∀ this params m l, l ≠ this → (pm this params m).2 !! l = m !! l.
End Programs.

(** * The membership test of [src/multi_method_2.cc]

    [meta::has_type<F, meta::list<T...>>] over a universe [T] of C++ types
    with equality; [decay] is [std::decay]. *)

Section HasType.
Context {T : Type} `{EqDecision T} (decay : T → T).

(** [has_type<F, list<...>>::value].  The specialisations: the empty list;
    a list whose head is [F] itself (the more specialised one, taken when it
    matches); any other non-empty list. *)
Fixpoint has_type_value (F : T) (l : list T) : bool :=
  match l with
  | [] => false
  | H :: Ts =>
      if decide (H = F) then true
      else if decide (F = decay H) then true else has_type_value F Ts
  end.

(** [has_type<F, list<...>>::type], as [true] for [std::true_type]: only
    the specialisation for a head equal to [F] declares [std::true_type]. *)
Definition has_type_type (F : T) (l : list T) : bool :=
  match l with
  | [] => false
  | H :: Ts => if decide (H = F) then true else false
  end.
End HasType.

Module Commands.

(** The command classes of the file; a class type decays to itself. *)
Inductive command := CommandA | CommandB | SomeCommandType | CommandC.

#[global] Instance command_eq_dec : EqDecision command.
Proof. solve_decision. Defined.

Definition decay (t : command) : command := t.

(** [using AvailableCommmands = meta::list<CommandA, CommandB,
    SomeCommandType>]. *)
Definition AvailableCommmands : list command :=
  [CommandA; CommandB; SomeCommandType].

(** [Base::on_modify_command_impl(T cmd, std::true_type)] prints nothing,
    the overload for [std::false_type] prints a line; the result is what is
    written to [std::cout]. *)
Definition on_modify_command_impl (tag : bool) : list string :=
  if tag then [] else ["Not implemented"].

(** [Base::on_modify_command(T cmd)] dispatches on
    [has_type<T, AvailableCommmands>::type()]. *)
Definition on_modify_command (t : command) : list string :=
  on_modify_command_impl (has_type_type t AvailableCommmands).

End Commands.

(** * Properties of the handle *)

Section Properties.
Context {V Exn Args Ret Params : Type}.
Context (deduce_call : Args → option (receiver * Params)).
#[local] Abbreviation state := (@state V Exn Args Ret Params).
#[local] Abbreviation func_impl := (@func_impl V Exn Args Ret Params).
#[local] Abbreviation callable := (@callable V Exn Args Ret Params).
Implicit Types (σ : state) (x y : var) (a : addr) (p : option addr).
Implicit Types (impl : func_impl) (cb : callable) (args : Args).

(** ** Steps of the monad *)

Lemma bind_normal {A B} (c : M A) (k : A → M B) σ v σ' :
  c σ = Normal v σ' → (c ≫= k) σ = k v σ'.
Proof. intros Hc. unfold mbind, M_bind. by rewrite Hc. Qed.

Lemma get_impl_base_eq x p σ :
  handles σ !! x = Some p → get_impl_base x σ = Normal p σ.
Proof. intros Hx. unfold get_impl_base. by rewrite Hx. Qed.

Lemma fresh_handle_ne x σ :
  is_Some (handles σ !! x) → fresh (dom (handles σ)) ≠ x.
Proof.
  intros Hx%elem_of_dom Heq. rewrite <- Heq in Hx.
  by apply is_fresh in Hx.
Qed.

Lemma fresh_addr_None (h : gmap addr func_impl) : h !! fresh (dom h) = None.
Proof. apply not_elem_of_dom, is_fresh. Qed.

Lemma fresh_addr_ne (h : gmap addr func_impl) a :
  is_Some (h !! a) → fresh (dom h) ≠ a.
Proof. intros [impl Ha] Heq. rewrite <- Heq, fresh_addr_None in Ha. done. Qed.

Lemma func_impl_copy_id impl : func_impl_copy impl = impl.
Proof. by destruct impl. Qed.

(** ** The call operator *)

Lemma invoke_empty x args σ :
  handles σ !! x = Some None → invoke deduce_call x args σ = Aborted.
Proof.
  intros Hx. unfold invoke.
  by rewrite (bind_normal _ _ _ _ _ (get_impl_base_eq _ _ _ Hx)).
Qed.

Lemma invoke_holding x a args σ :
  handles σ !! x = Some (Some a) →
  invoke deduce_call x args σ = virtual_call deduce_call a args σ.
Proof.
  intros Hx. unfold invoke.
  by rewrite (bind_normal _ _ _ _ _ (get_impl_base_eq _ _ _ Hx)).
Qed.

Lemma virtual_call_not_aborted a args σ :
  virtual_call deduce_call a args σ ≠ Aborted.
Proof.
  unfold virtual_call. destruct (heap σ !! a) as [impl|]; [|done].
  destruct (impl_call _ _ _ _) as [[[[r|e] impl'] m']|]; done.
Qed.

(** C4. Invoking a handle halts the program through the assertion exactly
    when the handle is empty: an empty handle always fails the [assert], and
    for a handle that holds an adapter the assertion never fires. *)
Theorem invoke_aborts_iff_empty x p args σ :
  handles σ !! x = Some p →
  invoke deduce_call x args σ = Aborted ↔ p = None.
Proof.
  intros Hx. split.
  - destruct p as [a|]; [|done].
    rewrite (invoke_holding _ _ _ _ Hx). intros Hab.
    by apply virtual_call_not_aborted in Hab.
  - intros ->. by apply invoke_empty.
Qed.

(** ** Copying from an empty handle *)

(** C1 (as the code behaves). The copy constructor calls [clone()] through
    the null [impl_base_] of an empty source: the behaviour is undefined, for
    the copy construction and for the copy assignment, whose parameter is
    copy-constructed in the same way.  No empty handle results. *)
Theorem copy_from_empty_undefined x h σ :
  handles σ !! h = Some None →
  copy_construct x h σ = Undefined ∧ copy_assign x h σ = Undefined.
Proof.
  intros Hh.
  assert (∀ z, copy_construct z h σ = Undefined) as Hcc.
  { intros z. unfold copy_construct, set_impl_base, get_impl_base, undefined,
      mbind, M_bind. simpl.
    destruct (decide (z = h)) as [->|Hne].
    - by rewrite lookup_insert_eq.
    - by rewrite lookup_insert_ne, Hh. }
  split; [apply Hcc|].
  unfold copy_assign, copy_assign_with, mbind, M_bind. by rewrite Hcc.
Qed.



(** ** What each operation does to the state *)

Lemma unique_ptr_reset_eq x old p σ :
  handles σ !! x = Some old → live old (heap σ) →
  unique_ptr_reset x p σ
  = Normal () (State (<[x := p]> (handles σ)) (free old (heap σ)) (mem σ)).
Proof.
  intros Hx Hlive. unfold unique_ptr_reset.
  rewrite (bind_normal _ _ _ _ _ (get_impl_base_eq _ _ _ Hx)).
  unfold mbind, M_bind, set_impl_base, delete_impl, mret, M_ret. simpl.
  destruct old as [a|]; simpl; [|done].
  destruct (Hlive a eq_refl) as [impl ->]. done.
Qed.

Lemma construct_eq x cb σ :
  construct x cb σ
  = Normal () (State (<[x := Some (fresh (dom (heap σ)))]> (handles σ))
                     (<[fresh (dom (heap σ)) := make_impl cb]> (heap σ)) (mem σ)).
Proof. done. Qed.

Lemma assign_eq x old cb σ :
  handles σ !! x = Some old → live old (heap σ) →
  assign x cb σ
  = Normal () (State (<[x := Some (fresh (dom (heap σ)))]> (handles σ))
                     (free old (<[fresh (dom (heap σ)) := make_impl cb]> (heap σ)))
                     (mem σ)).
Proof.
  intros Hx Hlive. unfold assign, new_impl, mbind, M_bind.
  rewrite (unique_ptr_reset_eq _ old); [done|done|].
  intros a -> . simpl. rewrite lookup_insert_ne; [by apply Hlive|].
  by apply fresh_addr_ne, Hlive.
Qed.

Lemma copy_construct_eq x y a impl σ :
  x ≠ y → handles σ !! y = Some (Some a) → heap σ !! a = Some impl →
  copy_construct x y σ
  = Normal () (State (<[x := Some (fresh (dom (heap σ)))]> (handles σ))
                     (<[fresh (dom (heap σ)) := impl]> (heap σ)) (mem σ)).
Proof.
  intros Hne Hy Ha. unfold copy_construct, set_impl_base.
  unfold mbind at 1, M_bind at 1.
  erewrite bind_normal; last first.
  { apply get_impl_base_eq. simpl. by rewrite lookup_insert_ne. }
  unfold mbind, M_bind, clone, new_impl. simpl. rewrite Ha.
  rewrite (unique_ptr_reset_eq _ None); simpl.
  - by rewrite insert_insert_eq, func_impl_copy_id.
  - apply lookup_insert_eq.
  - by intros ? [=].
Qed.

Lemma unique_ptr_release_eq x p σ :
  handles σ !! x = Some p →
  unique_ptr_release x σ
  = Normal p (State (<[x := None]> (handles σ)) (heap σ) (mem σ)).
Proof.
  intros Hx. unfold unique_ptr_release.
  by rewrite (bind_normal _ _ _ _ _ (get_impl_base_eq _ _ _ Hx)).
Qed.

Lemma assign_body_eq x other old p σ :
  x ≠ other → handles σ !! other = Some p →
  handles σ !! x = Some old → live old (heap σ) →
  assign_body x other σ
  = Normal () (State (<[x := p]> (<[other := None]> (handles σ)))
                     (free old (heap σ)) (mem σ)).
Proof.
  intros Hne Ho Hx Hlive. unfold assign_body.
  rewrite (bind_normal _ _ _ _ _ (unique_ptr_release_eq _ _ _ Ho)).
  rewrite (unique_ptr_reset_eq _ old); [done| |done].
  simpl. by rewrite lookup_insert_ne.
Qed.

Lemma destroy_eq x p σ :
  handles σ !! x = Some p → live p (heap σ) →
  destroy x σ
  = Normal () (State (delete x (handles σ)) (free p (heap σ)) (mem σ)).
Proof.
  intros Hx Hlive. unfold destroy.
  rewrite (bind_normal _ _ _ _ _ (get_impl_base_eq _ _ _ Hx)).
  destruct p as [a|]; [|done].
  destruct (Hlive a eq_refl) as [impl Ha].
  unfold mbind, M_bind, delete_impl. by rewrite Ha.
Qed.

Lemma copy_assign_eq x y old a impl σ :
  handles σ !! x = Some old → live old (heap σ) →
  handles σ !! y = Some (Some a) → heap σ !! a = Some impl →
  copy_assign x y σ
  = Normal () (State (<[x := Some (fresh (dom (heap σ)))]> (handles σ))
                     (free old (<[fresh (dom (heap σ)) := impl]> (heap σ)))
                     (mem σ)).
Proof.
  intros Hx Hlive Hy Ha. unfold copy_assign, copy_assign_with.
  set (other := fresh (dom (handles σ))). set (a' := fresh (dom (heap σ))).
  assert (other ≠ x) as Hox by (by apply fresh_handle_ne; rewrite Hx).
  assert (other ≠ y) as Hoy by (by apply fresh_handle_ne; rewrite Hy).
  assert (handles σ !! other = None) as Hnone
    by apply not_elem_of_dom, is_fresh.
  erewrite bind_normal; [|by eapply copy_construct_eq].
  fold a'.
  erewrite bind_normal; last first.
  { apply (assign_body_eq _ _ old (Some a')); simpl.
    - done.
    - apply lookup_insert_eq.
    - by rewrite lookup_insert_ne.
    - intros b ->. rewrite lookup_insert_ne; [by apply Hlive|].
      by apply fresh_addr_ne, Hlive. }
  rewrite (destroy_eq _ None); simpl.
  - do 2 f_equal.
    rewrite insert_insert_eq, delete_insert_ne, delete_insert_eq by done.
    by rewrite delete_id.
  - rewrite lookup_insert_ne, insert_insert_eq by done. apply lookup_insert_eq.
  - by intros ? [=].
Qed.

(** ** Postconditions of normal termination *)

Lemma post_normal {A} (c : M A) σ Q v σ' :
  post c σ Q → c σ = Normal v σ' → Q v σ'.
Proof. unfold post. intros HQ Hc. by rewrite Hc in HQ. Qed.

Lemma post_bind {A B} (c : M A) (k : A → M B) σ Q :
  post c σ (λ v σ1, post (k v) σ1 Q) → post (c ≫= k) σ Q.
Proof. unfold post, mbind, M_bind. by destruct (c σ). Qed.

Lemma post_mono {A} (c : M A) σ (Q Q' : A → state → Prop) :
  (∀ v σ', Q v σ' → Q' v σ') → post c σ Q → post c σ Q'.
Proof. unfold post. destruct (c σ); auto. Qed.

Lemma post_eq {A} (c c' : M A) σ Q :
  c σ = c' σ → post c' σ Q → post c σ Q.
Proof. unfold post. by intros ->. Qed.

Lemma copy_assign_unfold x y σ :
  copy_assign x y σ = copy_assign_with (fresh (dom (handles σ))) x y σ.
Proof. reflexivity. Qed.

Lemma unique_ptr_reset_post x p σ :
  post (unique_ptr_reset x p) σ
    (λ _ σ', handles σ' = <[x := p]> (handles σ)).
Proof.
  unfold post, unique_ptr_reset, get_impl_base, set_impl_base, delete_impl,
    mbind, M_bind, mret, M_ret.
  destruct (handles σ !! x) as [[b|]|]; simpl; [|done..].
  by destruct (heap σ !! b).
Qed.

Lemma unique_ptr_release_post x σ :
  post (unique_ptr_release x) σ
    (λ p σ', handles σ !! x = Some p ∧ handles σ' = <[x := None]> (handles σ)).
Proof.
  unfold post, unique_ptr_release, get_impl_base, set_impl_base,
    mbind, M_bind, mret, M_ret.
  by destruct (handles σ !! x).
Qed.

Lemma copy_construct_post x y σ :
  post (copy_construct x y) σ
    (λ _ σ', ∃ a, handles σ' = <[x := Some a]> (handles σ)).
Proof.
  unfold copy_construct. apply post_bind. unfold post at 1. simpl.
  apply post_bind. unfold post at 1, get_impl_base. simpl.
  destruct (_ !! y) as [[b|]|]; [|done..].
  apply post_bind. unfold post at 1, clone, new_impl. simpl.
  destruct (heap σ !! b); [|done].
  eapply post_mono, unique_ptr_reset_post. simpl.
  intros _ σ' ->. eexists. by rewrite insert_insert_eq.
Qed.

Lemma assign_body_post x other σ :
  post (assign_body x other) σ
    (λ _ σ', ∃ p, handles σ !! other = Some p
                  ∧ handles σ' = <[x := p]> (<[other := None]> (handles σ))).
Proof.
  unfold assign_body. apply post_bind.
  eapply post_mono, unique_ptr_release_post. simpl.
  intros p σ1 [Ho Hσ1]. eapply post_mono, unique_ptr_reset_post. simpl.
  intros _ σ' ->. exists p. by rewrite Hσ1.
Qed.

Lemma destroy_post x σ :
  post (destroy x) σ (λ _ σ', handles σ' = delete x (handles σ)).
Proof.
  unfold post, destroy, get_impl_base, delete_impl, end_of_life,
    mbind, M_bind, mret, M_ret.
  destruct (handles σ !! x) as [[b|]|]; [|done..].
  by destruct (heap σ !! b).
Qed.

Lemma assign_post x cb σ :
  post (assign x cb) σ
    (λ _ σ', handles σ' = <[x := Some (fresh (dom (heap σ)))]> (handles σ)).
Proof.
  unfold assign. apply post_bind. unfold post at 1, new_impl.
  eapply post_mono, unique_ptr_reset_post. done.
Qed.

Lemma copy_assign_steps_post x y other σ :
  other ≠ x →
  post (copy_assign_with other x y) σ
    (λ _ σ', ∃ a, handles σ' !! x = Some (Some a)).
Proof.
  intros Hox. unfold copy_assign_with.
  apply post_bind. eapply post_mono, copy_construct_post. simpl.
  intros _ σ1 [a Hσ1]. apply post_bind.
  eapply post_mono, assign_body_post. simpl.
  intros _ σ2 (p & Hp & Hσ2). eapply post_mono, destroy_post. simpl.
  intros _ σ3 ->. exists a.
  rewrite Hσ1, lookup_insert_eq in Hp. injection Hp as <-.
  by rewrite Hσ2, lookup_delete_ne, lookup_insert_eq.
Qed.

Lemma copy_assign_post x y σ :
  is_Some (handles σ !! x) →
  post (copy_assign x y) σ (λ _ σ', ∃ a, handles σ' !! x = Some (Some a)).
Proof.
  intros Hx. eapply post_eq; [apply copy_assign_unfold|].
  apply copy_assign_steps_post. by apply fresh_handle_ne.
Qed.

(** ** Emptiness *)

Lemma operator_bool_holding x a σ :
  handles σ !! x = Some (Some a) → operator_bool x σ = Normal true σ.
Proof.
  intros Hx. unfold operator_bool.
  by rewrite (bind_normal _ _ _ _ _ (get_impl_base_eq _ _ _ Hx)).
Qed.

(** C9. A freshly default-constructed handle reports empty, and a handle
    reports non-empty after every successful assignment of a payload: by
    the assignment of a callable, and by the copy assignment from another
    handle. *)
Theorem emptiness_invariant x σ :
  (default_construct x ≫= λ _, operator_bool x) σ
    = Normal false (State (<[x := None]> (handles σ)) (heap σ) (mem σ))
  ∧ (∀ cb σ', assign x cb σ = Normal () σ' →
       operator_bool x σ' = Normal true σ')
  ∧ (∀ y σ', is_Some (handles σ !! x) → copy_assign x y σ = Normal () σ' →
       operator_bool x σ' = Normal true σ').
Proof.
  split; [|split].
  - unfold default_construct, set_impl_base, operator_bool, get_impl_base,
      mbind, M_bind, mret, M_ret. simpl. by rewrite lookup_insert_eq.
  - intros cb σ' Hassign.
    pose proof (post_normal _ _ _ _ _ (assign_post x cb σ) Hassign) as Hx'.
    simpl in Hx'. eapply operator_bool_holding.
    rewrite Hx'. apply lookup_insert_eq.
  - intros y σ' Hx Hassign.
    destruct (post_normal _ _ _ _ _ (copy_assign_post x y σ Hx) Hassign)
      as [a Hx'].
    by eapply operator_bool_holding.
Qed.

(** ** Calls through the handle *)

Lemma invoke_eq x a impl args σ :
  handles σ !! x = Some (Some a) → heap σ !! a = Some impl →
  invoke deduce_call x args σ
  = match impl_call deduce_call impl args (mem σ) with
    | None => Undefined
    | Some (PReturn r, impl', m') =>
        Normal r (State (handles σ) (<[a := impl']> (heap σ)) m')
    | Some (PThrow e, impl', m') =>
        Raised e (State (handles σ) (<[a := impl']> (heap σ)) m')
    end.
Proof.
  intros Hx Ha. rewrite (invoke_holding _ _ _ _ Hx).
  unfold virtual_call. by rewrite Ha.
Qed.

Lemma result_of_invoke x a impl args σ :
  handles σ !! x = Some (Some a) → heap σ !! a = Some impl →
  result_of (invoke deduce_call x args σ)
  = payload_result deduce_call impl args (mem σ).
Proof.
  intros Hx Ha. rewrite (invoke_eq _ _ _ _ _ Hx Ha).
  destruct impl as [f|F obj|pm]; simpl.
  - by destruct (f args (mem σ)) as [[r|e] m'].
  - by destruct (fcall F obj args (mem σ)) as [[[r|e] obj'] m'].
  - destruct (deduce_call args) as [[[q|l] params]|]; simpl; [| |done].
    + by destruct (pm q params (mem σ)) as [[r|e] m'].
    + destruct (mem σ !! l) as [v|]; [|done].
      by destruct (pm _ params _) as [[r|e] m'].
Qed.

Lemma result_of_raised (o : outcome Ret) e :
  result_of o = Some (PThrow e) ↔ ∃ σ', o = Raised e σ'.
Proof.
  destruct o as [r σ1|e1 σ1| |]; simpl; split;
    try (intros [σ' [=]]); try done.
  - intros [= ->]. by eexists.
  - by subst.
Qed.

(** C6. A failure of the payload reaches the caller unchanged: a call
    through the handle raises [e] exactly when the call of the stored payload
    itself (the function, the functor object, the member function on its
    receiver) raises [e], and what the handle yields is what the payload
    yields; the wrapper neither translates nor suppresses a failure, nor
    raises one of its own. *)
Theorem failure_propagates x a impl args σ :
  handles σ !! x = Some (Some a) → heap σ !! a = Some impl →
  result_of (invoke deduce_call x args σ)
    = payload_result deduce_call impl args (mem σ)
  ∧ ∀ e, (∃ σ', invoke deduce_call x args σ = Raised e σ')
         ↔ payload_result deduce_call impl args (mem σ) = Some (PThrow e).
Proof.
  intros Hx Ha. split; [by eapply result_of_invoke|].
  intros e. rewrite <- result_of_raised.
  by rewrite (result_of_invoke _ _ _ _ _ Hx Ha).
Qed.

(** C7. A plain function that returns a fixed value [v], wrapped in a
    handle and called through it, returns exactly [v]. *)
Theorem wrapped_function_returns_its_value (f : fn_ptr) v x args σ :
  returns_fixed f v →
  ∃ σ', (construct x (FnPtr f) ≫= λ _, invoke deduce_call x args) σ
        = Normal v σ'.
Proof.
  intros Hf. rewrite (bind_normal _ _ _ _ _ (construct_eq x (FnPtr f) σ)).
  erewrite invoke_eq; simpl; [|apply lookup_insert_eq..].
  specialize (Hf args (mem σ)). unfold impl_call.
  destruct (f args (mem σ)) as [r m']. simpl in Hf. subst r. by eexists.
Qed.

(** C8. A function called through a handle has exactly the effect of the
    direct call [f(args...)]: the same result and the same caller objects
    afterwards, hence the same mutation of a by-reference argument. *)
Theorem call_through_handle_same_effect (f : fn_ptr) x a args σ :
  handles σ !! x = Some (Some a) → heap σ !! a = Some (func_impl_fn f) →
  observe (invoke deduce_call x args σ) = Some (f args (mem σ)).
Proof.
  intros Hx Ha. rewrite (invoke_eq _ _ _ _ _ Hx Ha). simpl.
  by destruct (f args (mem σ)) as [[r|e] m'].
Qed.

(** ** Reassignment *)

Lemma invoke_all_eq x a argss : ∀ impl σ,
  handles σ !! x = Some (Some a) → heap σ !! a = Some impl →
  invoke_all deduce_call x argss σ
  = impl_calls deduce_call impl argss (mem σ).
Proof.
  induction argss as [|args rest IH]; intros impl σ Hx Ha; [done|].
  simpl. rewrite (invoke_eq _ _ _ _ _ Hx Ha).
  destruct (impl_call deduce_call impl args (mem σ))
    as [[[[r|e] impl'] m']|]; [| |done];
    (f_equal; apply IH; simpl; [done|apply lookup_insert_eq]).
Qed.

Lemma replaced_lookup a1 a' impl' (h : gmap addr func_impl) :
  is_Some (h !! a1) → a' = fresh (dom h) →
  free (Some a1) (<[a' := impl']> h) !! a' = Some impl'
  ∧ free (Some a1) (<[a' := impl']> h) !! a1 = None.
Proof.
  intros Ha1 ->. simpl. split; [|apply lookup_delete_eq].
  rewrite lookup_delete_ne; [apply lookup_insert_eq|].
  intros Heq. by apply (fresh_addr_ne h a1).
Qed.


(** ** Copies are independent *)

Lemma observe_invoke x a impl args σ :
  handles σ !! x = Some (Some a) → heap σ !! a = Some impl →
  observe (invoke deduce_call x args σ)
  = (λ rim, (rim.1.1, rim.2)) <$> impl_call deduce_call impl args (mem σ).
Proof.
  intros Hx Ha. rewrite (invoke_eq _ _ _ _ _ Hx Ha).
  by destruct (impl_call _ _ _ _) as [[[[r|e] impl'] m']|].
Qed.

(** A call through [x] leaves the handles as they are and writes to no
    adapter but the one [x] owns. *)
Lemma invoke_frame x a args σ :
  handles σ !! x = Some (Some a) →
  ∀ σ', (∃ r, invoke deduce_call x args σ = Normal r σ')
        ∨ (∃ e, invoke deduce_call x args σ = Raised e σ') →
  handles σ' = handles σ ∧ ∀ b, b ≠ a → heap σ' !! b = heap σ !! b.
Proof.
  intros Hx σ'. rewrite (invoke_holding _ _ _ _ Hx). unfold virtual_call.
  destruct (heap σ !! a) as [impl|]; [|by intros [[? [=]]|[? [=]]]].
  destruct (impl_call _ _ _ _) as [[[[r|e] impl'] m']|];
    intros [[? [=]]|[? [=]]]; subst; simpl;
    (split; [done|by intros b Hb; rewrite lookup_insert_ne]).
Qed.

Lemma after_invoking_frame x a σ σ' :
  after_invoking deduce_call x σ σ' →
  handles σ !! x = Some (Some a) →
  handles σ' = handles σ ∧ ∀ b, b ≠ a → heap σ' !! b = heap σ !! b.
Proof.
  induction 1 as [σ|σ args r σ1 σ2 Hinv _ IH|σ args e σ1 σ2 Hinv _ IH];
    intros Hx; [done|..].
  - destruct (invoke_frame _ _ args _ Hx σ1) as [Hh Hheap]; [eauto|].
    destruct IH as [Hh' Hheap']; [by rewrite Hh|].
    split; [congruence|]. intros b Hb. by rewrite Hheap', Hheap.
  - destruct (invoke_frame _ _ args _ Hx σ1) as [Hh Hheap]; [eauto|].
    destruct IH as [Hh' Hheap']; [by rewrite Hh|].
    split; [congruence|]. intros b Hb. by rewrite Hheap', Hheap.
Qed.

(** The result of calling a functor with owned state is determined by the
    adapter the handle owns. *)
Lemma result_of_owned (F : functor) obj x a args σ σ' :
  owns_its_state F →
  handles σ !! x = Some (Some a) → heap σ !! a = Some (func_impl_functor F obj) →
  handles σ' !! x = Some (Some a) → heap σ' !! a = Some (func_impl_functor F obj) →
  result_of (invoke deduce_call x args σ')
  = result_of (invoke deduce_call x args σ).
Proof.
  intros Hown Hx Ha Hx' Ha'.
  rewrite (result_of_invoke _ _ _ _ _ Hx Ha), (result_of_invoke _ _ _ _ _ Hx' Ha').
  simpl. by rewrite (Hown obj args (mem σ') (mem σ)).
Qed.

(** C2. Copying a handle [x] that wraps a functor with owned state into
    [y] gives [y] an adapter of its own, at another address, holding a copy
    of the functor: no call through [x], however many, changes the result of
    a call through [y], and a later change of any caller-side object (the
    original functor among them) changes the result of neither handle. *)
Theorem copy_is_independent_deep_copy (F : functor) obj x y a1 σ :
  owns_its_state F → x ≠ y →
  handles σ !! x = Some (Some a1) →
  heap σ !! a1 = Some (func_impl_functor F obj) →
  ∃ a2 σ2,
    copy_construct y x σ = Normal () σ2
    ∧ a2 ≠ a1
    ∧ handles σ2 !! x = Some (Some a1)
    ∧ heap σ2 !! a1 = Some (func_impl_functor F obj)
    ∧ handles σ2 !! y = Some (Some a2)
    ∧ heap σ2 !! a2 = Some (func_impl_functor F obj)
    ∧ (∀ σ3 args, after_invoking deduce_call x σ2 σ3 →
         result_of (invoke deduce_call y args σ3)
         = result_of (invoke deduce_call y args σ2))
    ∧ (∀ l v args,
         result_of (invoke deduce_call x args (store l v σ2))
         = result_of (invoke deduce_call x args σ2)
         ∧ result_of (invoke deduce_call y args (store l v σ2))
           = result_of (invoke deduce_call y args σ2)).
Proof.
  intros Hown Hne Hx Ha1.
  set (a2 := fresh (dom (heap σ))).
  assert (a2 ≠ a1) as Ha21 by (apply fresh_addr_ne; eauto).
  set (σ2 := State (<[y := Some a2]> (handles σ))
                   (<[a2 := func_impl_functor F obj]> (heap σ)) (mem σ)).
  assert (handles σ2 !! x = Some (Some a1)) as Hx2
    by (simpl; by rewrite lookup_insert_ne).
  assert (heap σ2 !! a1 = Some (func_impl_functor F obj)) as Ha12
    by (simpl; by rewrite lookup_insert_ne).
  assert (handles σ2 !! y = Some (Some a2)) as Hy2 by apply lookup_insert_eq.
  assert (heap σ2 !! a2 = Some (func_impl_functor F obj)) as Ha22
    by apply lookup_insert_eq.
  exists a2, σ2. split; [by apply (copy_construct_eq y x a1)|].
  repeat split; try done.
  - intros σ3 args Hafter.
    destruct (after_invoking_frame _ _ _ _ Hafter Hx2) as [Hh Hheap].
    apply (result_of_owned F obj y a2); try done.
    + by rewrite Hh.
    + by rewrite Hheap.
  - by apply (result_of_owned F obj x a1).
  - by apply (result_of_owned F obj y a2).
Qed.

(** ** The source of a copy assignment *)

(** C10. Copy-assigning a non-empty handle [y] into another handle [x]
    leaves [y] as it was: [y] still owns the same adapter, unchanged, reports
    non-empty, and a call through [y] has the result and the effect it would
    have had before the assignment. *)
Theorem copy_assign_leaves_source_unchanged x y old a2 impl2 σ :
  x ≠ y → wf σ →
  handles σ !! x = Some old →
  handles σ !! y = Some (Some a2) → heap σ !! a2 = Some impl2 →
  ∃ σ',
    copy_assign x y σ = Normal () σ'
    ∧ handles σ' !! y = Some (Some a2)
    ∧ heap σ' !! a2 = Some impl2
    ∧ operator_bool y σ' = Normal true σ'
    ∧ ∀ args, observe (invoke deduce_call y args σ')
              = observe (invoke deduce_call y args σ).
Proof.
  intros Hne [Hexcl Hlive] Hx Hy Ha2.
  assert (live old (heap σ)) as Hold by (intros b ->; by eapply Hlive).
  eexists. split; [by apply (copy_assign_eq x y old a2 impl2)|].
  set (σ' := State _ _ _).
  assert (handles σ' !! y = Some (Some a2)) as Hy'
    by (simpl; by rewrite lookup_insert_ne).
  assert (heap σ' !! a2 = Some impl2) as Ha2'.
  { simpl. destruct old as [a1|]; simpl.
    - rewrite lookup_delete_ne.
      + rewrite lookup_insert_ne; [done|]. apply fresh_addr_ne; eauto.
      + intros ->. by apply Hne, (Hexcl x y a2).
    - rewrite lookup_insert_ne; [done|]. apply fresh_addr_ne; eauto. }
  repeat split; try done.
  - by apply (operator_bool_holding y a2).
  - intros args.
    by rewrite (observe_invoke _ _ _ _ _ Hy' Ha2'), (observe_invoke _ _ _ _ _ Hy Ha2).
Qed.

(** ** Exclusive ownership is an invariant *)

Lemma wf_initial (m : gmap loc V) : wf (State ∅ ∅ m : state).
Proof. split; intros ?; intros; simplify_map_eq. Qed.

Lemma wf_default_construct x σ :
  wf σ → wf (State (<[x := None]> (handles σ)) (heap σ) (mem σ)).
Proof.
  intros [Hexcl Hlive]. split.
  - intros z w b Hz Hw. simpl in *.
    destruct (decide (z = x)) as [->|]; [by rewrite lookup_insert_eq in Hz|].
    destruct (decide (w = x)) as [->|]; [by rewrite lookup_insert_eq in Hw|].
    rewrite lookup_insert_ne in Hz, Hw by done. by eapply Hexcl.
  - intros z b Hz. simpl in *.
    destruct (decide (z = x)) as [->|]; [by rewrite lookup_insert_eq in Hz|].
    rewrite lookup_insert_ne in Hz by done. by eapply Hlive.
Qed.

(** The state after [x] takes a newly allocated adapter and gives up the
    one it owned through [old]: the shape of construction ([old] null), of
    assignment and of copy assignment. *)
Lemma wf_replace x old impl σ :
  wf σ → (old = None ∨ handles σ !! x = Some old) →
  wf (State (<[x := Some (fresh (dom (heap σ)))]> (handles σ))
            (free old (<[fresh (dom (heap σ)) := impl]> (heap σ))) (mem σ)).
Proof.
  intros [Hexcl Hlive] Hold. set (a' := fresh (dom (heap σ))).
  assert (∀ z, z ≠ x → handles σ !! z ≠ Some (Some a')) as Hfresh.
  { intros z _ Hz. apply Hlive in Hz. by apply (fresh_addr_ne (heap σ) a'). }
  split.
  - intros z w b Hz Hw. simpl in *.
    destruct (decide (z = x)) as [->|Hzx], (decide (w = x)) as [->|Hwx];
      try done.
    + rewrite lookup_insert_eq in Hz. rewrite lookup_insert_ne in Hw by done.
      injection Hz as <-. by apply Hfresh in Hw.
    + rewrite lookup_insert_eq in Hw. rewrite lookup_insert_ne in Hz by done.
      injection Hw as <-. by apply Hfresh in Hz.
    + rewrite lookup_insert_ne in Hz, Hw by done. by eapply Hexcl.
  - intros z b Hz. simpl in *.
    assert (is_Some (<[a' := impl]> (heap σ) !! b)) as Hb.
    { destruct (decide (z = x)) as [->|Hzx].
      - rewrite lookup_insert_eq in Hz. injection Hz as <-.
        by rewrite lookup_insert_eq.
      - rewrite lookup_insert_ne in Hz by done.
        rewrite lookup_insert_ne; [by eapply Hlive|].
        intros <-. by apply Hfresh in Hz. }
    destruct old as [a1|]; simpl; [|done].
    rewrite lookup_delete_ne; [done|]. intros <-.
    destruct Hold as [[=]|Hx].
    destruct (decide (z = x)) as [->|Hzx].
    + rewrite lookup_insert_eq in Hz. injection Hz as Heq.
      apply (fresh_addr_ne (heap σ) a1); [by eapply Hlive|done].
    + rewrite lookup_insert_ne in Hz by done. by apply Hzx, (Hexcl z x a1).
Qed.

Lemma wf_construct x cb σ :
  wf σ → post (construct x cb) σ (λ _ σ', wf σ').
Proof.
  intros Hwf. unfold post. rewrite construct_eq.
  apply (wf_replace x None); auto.
Qed.

Lemma wf_copy_construct x y a impl σ :
  wf σ → x ≠ y →
  handles σ !! y = Some (Some a) → heap σ !! a = Some impl →
  ∃ σ', copy_construct x y σ = Normal () σ' ∧ wf σ'.
Proof.
  intros Hwf Hne Hy Ha. eexists. split; [by eapply copy_construct_eq|].
  apply (wf_replace x None); auto.
Qed.

Lemma wf_assign x old cb σ :
  wf σ → handles σ !! x = Some old →
  ∃ σ', assign x cb σ = Normal () σ' ∧ wf σ'.
Proof.
  intros Hwf Hx. eexists. split.
  - apply (assign_eq x old); [done|]. intros b ->. by eapply Hwf.
  - apply (wf_replace x old); auto.
Qed.

Lemma wf_copy_assign x y old a impl σ :
  wf σ → handles σ !! x = Some old →
  handles σ !! y = Some (Some a) → heap σ !! a = Some impl →
  ∃ σ', copy_assign x y σ = Normal () σ' ∧ wf σ'.
Proof.
  intros Hwf Hx Hy Ha. eexists. split.
  - apply (copy_assign_eq x y old a impl); try done. intros b ->. by eapply Hwf.
  - apply (wf_replace x old); auto.
Qed.

Lemma wf_invoke x args σ σ' :
  wf σ →
  (∃ r, invoke deduce_call x args σ = Normal r σ')
  ∨ (∃ e, invoke deduce_call x args σ = Raised e σ') →
  wf σ'.
Proof.
  intros [Hexcl Hlive] Hinv.
  destruct (handles σ !! x) as [[a|]|] eqn:Hx.
  - assert (is_Some (heap σ !! a)) as [impl Ha] by by eapply Hlive.
    rewrite (invoke_eq _ _ _ _ _ Hx Ha) in Hinv.
    assert (wf (State (handles σ) (<[a := impl]> (heap σ)) (mem σ))) as Hwf.
    { rewrite insert_id by done. by destruct σ. }
    destruct (impl_call _ _ _ _) as [[[[r|e] impl'] m']|];
      destruct Hinv as [[? [=]]|[? [=]]]; subst;
      (split; [exact Hexcl|]); intros z b Hz; simpl in *;
      (destruct (decide (b = a)) as [->|];
        [by rewrite lookup_insert_eq
        |rewrite lookup_insert_ne by done; by eapply Hlive]).
  - rewrite (invoke_empty _ _ _ Hx) in Hinv. by destruct Hinv as [[? [=]]|[? [=]]].
  - unfold invoke, get_impl_base, mbind, M_bind in Hinv. rewrite Hx in Hinv.
    by destruct Hinv as [[? [=]]|[? [=]]].
Qed.

(** ** Member functions *)

(** X11. With a pointer as receiver, the call through the handle is the
    direct call on the object pointed to: the same result and the same
    objects of the caller afterwards, the receiver's update included. *)
Lemma member_call_pointer_receiver (pm : mem_fn_ptr) x a args (q : loc) params σ :
  handles σ !! x = Some (Some a) → heap σ !! a = Some (func_impl_member pm) →
  deduce_call args = Some (RecvPtr q, params) →
  observe (invoke deduce_call x args σ)
  = Some (direct_call pm (RecvPtr q) params (mem σ)).
Proof.
  intros Hx Ha Hargs. rewrite (observe_invoke _ _ _ _ _ Hx Ha). simpl.
  rewrite Hargs. simpl. by destruct (pm q params (mem σ)).
Qed.

(** With the object itself as receiver, the member function runs on a copy
    of the object, which is gone when the call returns. *)
Lemma member_call_object_receiver (pm : mem_fn_ptr) x a args l v params σ :
  handles σ !! x = Some (Some a) → heap σ !! a = Some (func_impl_member pm) →
  deduce_call args = Some (RecvObj l, params) → mem σ !! l = Some v →
  observe (invoke deduce_call x args σ)
  = Some ((pm (fresh (dom (mem σ))) params
             (<[fresh (dom (mem σ)) := v]> (mem σ))).1,
          delete (fresh (dom (mem σ)))
            (pm (fresh (dom (mem σ))) params
               (<[fresh (dom (mem σ)) := v]> (mem σ))).2).
Proof.
  intros Hx Ha Hargs Hl. rewrite (observe_invoke _ _ _ _ _ Hx Ha). simpl.
  rewrite Hargs. simpl. rewrite Hl. by destruct (pm _ params _).
Qed.

End Properties.

(** * The properties on the demonstration code *)

Import Demo.

(** The blocks of [main] yield what their assertions expect. *)
Example block1_returns_42 :
  ∃ σ, block1 empty_state = Normal 42%Z σ.
Proof. eexists. vm_compute. reflexivity. Qed.

Example block2_increments :
  observe (block2 int_41) = Some (PReturn (), {[0 := 42%Z]}).
Proof. vm_compute. reflexivity. Qed.

Example block3_returns_43 :
  ∃ σ, block3 empty_state = Normal 43%Z σ.
Proof. eexists. vm_compute. reflexivity. Qed.

Example block5_keeps_its_copy :
  ∃ σ, block5 lf_fresh = Normal "LargeFunctorString" σ
       ∧ mem σ !! 0 = Some "Silmarillion"
       ∧ "LargeFunctorString" ≠ "Silmarillion".
Proof. eexists. split; [vm_compute; reflexivity|]. split; [reflexivity|done]. Qed.

Example block_counter_pointer_updates :
  observe (block_counter_pointer counter_0) = Some (PReturn (), {[0 := 1%Z]}).
Proof. vm_compute. reflexivity. Qed.

Lemma invoke_aborts_iff_empty_witness :
  handles two_empty !! "h" = Some None
  ∧ (invoke no_receiver "h" () two_empty = Aborted ↔ (None : option addr) = None).
Proof.
  split; [vm_compute; reflexivity|].
  apply (invoke_aborts_iff_empty no_receiver "h" None () two_empty).
  vm_compute. reflexivity.
Defined.

Lemma copy_from_empty_undefined_witness :
  handles two_empty !! "h" = Some None
  ∧ copy_construct "g" "h" two_empty = Undefined
  ∧ copy_assign "g" "h" two_empty = Undefined.
Proof.
  split; [vm_compute; reflexivity|].
  apply (copy_from_empty_undefined "g" "h" two_empty).
  vm_compute. reflexivity.
Defined.

(** C5 (as the code behaves). [call] takes the receiver by value: when the
    first argument is the object itself, the member function runs on a copy.
    [Counter::inc] called through the handle on [c] leaves [c.n == 0], while
    the direct call [c.inc()] gives [c.n == 1]; the two agree when the
    receiver is passed as a pointer. *)
Theorem member_call_on_object_runs_on_copy :
  observe (block_counter_object counter_0) = Some (PReturn (), {[0 := 0%Z]})
  ∧ direct_call Counter_inc (RecvObj 0) () (mem counter_0)
    = (PReturn (), {[0 := 1%Z]})
  ∧ observe (block_counter_pointer counter_0)
    = Some (direct_call Counter_inc (RecvPtr 0) () (mem counter_0)).
Proof. repeat split; vm_compute; reflexivity. Qed.

Lemma LargeFunctor_owns_its_state : owns_its_state LargeFunctor.
Proof. intros obj args m m'. reflexivity. Qed.

Lemma copy_is_independent_deep_copy_witness :
  ∃ a2 σ2,
    copy_construct "g" "f" f_large = Normal () σ2
    ∧ a2 ≠ 0
    ∧ handles σ2 !! "f" = Some (Some 0)
    ∧ heap σ2 !! 0 = Some (func_impl_functor LargeFunctor "LargeFunctorString")
    ∧ handles σ2 !! "g" = Some (Some a2)
    ∧ heap σ2 !! a2 = Some (func_impl_functor LargeFunctor "LargeFunctorString")
    ∧ (∀ σ3 args, after_invoking no_receiver "f" σ2 σ3 →
         result_of (invoke no_receiver "g" args σ3)
         = result_of (invoke no_receiver "g" args σ2))
    ∧ (∀ l v args,
         result_of (invoke no_receiver "f" args (store l v σ2))
         = result_of (invoke no_receiver "f" args σ2)
         ∧ result_of (invoke no_receiver "g" args (store l v σ2))
           = result_of (invoke no_receiver "g" args σ2)).
Proof.
  apply (copy_is_independent_deep_copy no_receiver LargeFunctor
           "LargeFunctorString" "f" "g" 0 f_large).
  - exact LargeFunctor_owns_its_state.
  - discriminate.
  - vm_compute. reflexivity.
  - vm_compute. reflexivity.
Defined.


(** The example of the reassignment: [f1], which held [foo_ex1], returns 43
    on every call after [f1 = f2]. *)
Example reassigned_handle_returns_43 :
  invoke_all no_receiver "f1" [(); (); ()] (after (copy_assign "f1" "f2") f1_f2)
  = [Some (PReturn 43%Z); Some (PReturn 43%Z); Some (PReturn 43%Z)].
Proof. vm_compute. reflexivity. Qed.

Lemma failure_propagates_witness :
  (result_of (invoke no_receiver "f" () f_thrower)
     = payload_result no_receiver (func_impl_fn thrower) () (mem f_thrower)
   ∧ ∀ e, (∃ σ', invoke no_receiver "f" () f_thrower = Raised e σ')
          ↔ payload_result no_receiver (func_impl_fn thrower) () (mem f_thrower)
            = Some (PThrow e))
  ∧ (result_of (invoke receiver_only "f" (RecvObj 0) f_counter_fail)
       = payload_result receiver_only (func_impl_member Counter_fail)
           (RecvObj 0) (mem f_counter_fail)
     ∧ ∀ e, (∃ σ', invoke receiver_only "f" (RecvObj 0) f_counter_fail
                    = Raised e σ')
            ↔ payload_result receiver_only (func_impl_member Counter_fail)
                (RecvObj 0) (mem f_counter_fail) = Some (PThrow e)).
Proof.
  split.
  - apply (failure_propagates no_receiver "f" 0 (func_impl_fn thrower) ()
             f_thrower); vm_compute; reflexivity.
  - apply (failure_propagates receiver_only "f" 0
             (func_impl_member Counter_fail) (RecvObj 0) f_counter_fail);
      vm_compute; reflexivity.
Defined.

(** A member function that raises on an object receiver, resp. on a
    pointer receiver, raises the same through the handle. *)
Example member_failure_reaches_caller :
  (∃ σ, invoke receiver_only "f" (RecvObj 0) f_counter_fail = Raised "failed" σ)
  ∧ (∃ σ, invoke receiver_only "f" (RecvPtr 0) f_counter_fail = Raised "failed" σ)
  ∧ payload_result receiver_only (func_impl_member Counter_fail) (RecvObj 0)
      (mem f_counter_fail) = Some (PThrow "failed").
Proof.
  split; [|split]; [eexists; vm_compute; reflexivity..|vm_compute; reflexivity].
Qed.

(** [foo_void] at the end of the range of [int]. *)
Example foo_void_wraps_at_INT_MAX :
  foo_void 0 {[0 := 2147483647%Z]} = (PReturn (), {[0 := (-2147483648)%Z]}).
Proof. vm_compute. reflexivity. Qed.

Example thrower_raises_boom :
  ∃ σ, invoke no_receiver "f" () f_thrower = Raised "boom" σ.
Proof. eexists. vm_compute. reflexivity. Qed.

Lemma foo_ex1_returns_fixed : returns_fixed foo_ex1 42%Z.
Proof. intros args m. reflexivity. Qed.

Lemma wrapped_function_returns_its_value_witness :
  ∃ σ', (construct "f" (FnPtr foo_ex1) ≫= λ _, invoke no_receiver "f" ())
          empty_state = Normal 42%Z σ'.
Proof.
  apply (wrapped_function_returns_its_value no_receiver foo_ex1 42%Z "f" ()
           empty_state).
  exact foo_ex1_returns_fixed.
Defined.

Lemma call_through_handle_same_effect_witness :
  observe (invoke no_receiver "f" 0 f_foo_void)
  = Some (foo_void 0 (mem f_foo_void))
  ∧ foo_void 0 (mem f_foo_void) = (PReturn (), {[0 := 42%Z]}).
Proof.
  split; [|vm_compute; reflexivity].
  apply (call_through_handle_same_effect no_receiver foo_void "f" 0 0 f_foo_void);
    vm_compute; reflexivity.
Defined.

Lemma emptiness_invariant_witness :
  operator_bool "f1" (after (assign "f1" (FnPtr foo_ex2)) f1_f2)
    = Normal true (after (assign "f1" (FnPtr foo_ex2)) f1_f2)
  ∧ operator_bool "f1" (after (copy_assign "f1" "f2") f1_f2)
    = Normal true (after (copy_assign "f1" "f2") f1_f2).
Proof.
  destruct (emptiness_invariant "f1" f1_f2) as (_ & Hassign & Hcopy). split.
  - apply (Hassign (FnPtr foo_ex2)). vm_compute. reflexivity.
  - apply (Hcopy "f2").
    + eexists. vm_compute. reflexivity.
    + vm_compute. reflexivity.
Defined.

Lemma f1_f2_eq :
  f1_f2 = State {["f1" := Some 0; "f2" := Some 1]}
                {[0 := func_impl_fn foo_ex1; 1 := func_impl_fn foo_ex2]} ∅.
Proof. vm_compute. reflexivity. Qed.

Lemma wf_f1_f2 : wf f1_f2.
Proof.
  rewrite f1_f2_eq. split.
  - intros x y a Hx Hy. simpl in *.
    destruct (decide (x = "f1")), (decide (y = "f1")),
      (decide (x = "f2")), (decide (y = "f2")); by simplify_map_eq.
  - intros x a Hx. simpl in *.
    destruct (decide (x = "f1")), (decide (x = "f2")); by simplify_map_eq.
Qed.

Lemma copy_assign_leaves_source_unchanged_witness :
  ∃ σ',
    copy_assign "f1" "f2" f1_f2 = Normal () σ'
    ∧ handles σ' !! "f2" = Some (Some 1)
    ∧ heap σ' !! 1 = Some (func_impl_fn foo_ex2)
    ∧ operator_bool "f2" σ' = Normal true σ'
    ∧ ∀ args, observe (invoke no_receiver "f2" args σ')
              = observe (invoke no_receiver "f2" args f1_f2).
Proof.
  apply (copy_assign_leaves_source_unchanged no_receiver "f1" "f2" (Some 0) 1
           (func_impl_fn foo_ex2) f1_f2).
  - discriminate.
  - exact wf_f1_f2.
  - vm_compute. reflexivity.
  - vm_compute. reflexivity.
  - vm_compute. reflexivity.
Defined.

(** * Further properties of the handle *)

Section MoreProperties.
Context {V Exn Args Ret Params : Type}.
Context (deduce_call : Args → option (receiver * Params)).
#[local] Abbreviation state := (@state V Exn Args Ret Params).
#[local] Abbreviation func_impl := (@func_impl V Exn Args Ret Params).
#[local] Abbreviation callable := (@callable V Exn Args Ret Params).
Implicit Types (σ : state) (x y z : var) (a b : addr) (p : option addr).
Implicit Types (impl : func_impl) (cb : callable) (args : Args).

(** ** Copies and self-assignment *)

(** X1. A copy of a non-empty handle, whatever the kind of its payload, is
    non-empty and behaves as its source: right after the copy, a call, and
    any sequence of calls, through the copy yields what it yields through
    the source. *)
Theorem copy_behaves_like_source x y a impl σ :
  x ≠ y → handles σ !! x = Some (Some a) → heap σ !! a = Some impl →
  ∃ σ', copy_construct y x σ = Normal () σ'
    ∧ operator_bool y σ' = Normal true σ'
    ∧ (∀ args, observe (invoke deduce_call y args σ')
               = observe (invoke deduce_call x args σ'))
    ∧ (∀ argss, invoke_all deduce_call y argss σ'
                = invoke_all deduce_call x argss σ').
Proof.
  intros Hne Hx Ha. eexists. split; [by apply (copy_construct_eq y x a impl)|].
  set (a' := fresh (dom (heap σ))). set (σ' := State _ _ _).
  assert (a' ≠ a) as Hfresh by (apply fresh_addr_ne; eauto).
  assert (handles σ' !! y = Some (Some a')) as Hy' by apply lookup_insert_eq.
  assert (heap σ' !! a' = Some impl) as Ha'' by apply lookup_insert_eq.
  assert (handles σ' !! x = Some (Some a)) as Hx'
    by (simpl; by rewrite lookup_insert_ne).
  assert (heap σ' !! a = Some impl) as Ha'
    by (simpl; by rewrite lookup_insert_ne).
  split; [by apply (operator_bool_holding y a')|]. split.
  - intros args.
    by rewrite (observe_invoke _ _ _ _ _ _ Hy' Ha''),
      (observe_invoke _ _ _ _ _ _ Hx' Ha').
  - intros argss.
    by rewrite (invoke_all_eq _ _ _ _ _ _ Hy' Ha''),
      (invoke_all_eq _ _ _ _ _ _ Hx' Ha').
Qed.

(** X2. Self-assignment [x = x] of a non-empty handle is safe: it ends
    normally, [x] owns a new adapter with the same payload, the old adapter
    is deleted, and a call through [x] has the result and the effect it had
    before. *)
Theorem self_assignment_is_safe x a impl σ :
  handles σ !! x = Some (Some a) → heap σ !! a = Some impl →
  ∃ a' σ', copy_assign x x σ = Normal () σ'
    ∧ handles σ' !! x = Some (Some a')
    ∧ heap σ' !! a' = Some impl
    ∧ heap σ' !! a = None
    ∧ ∀ args, observe (invoke deduce_call x args σ')
              = observe (invoke deduce_call x args σ).
Proof.
  intros Hx Ha.
  assert (live (Some a) (heap σ)) as Hlive by (intros ? [= <-]; eauto).
  eexists _, _. split; [by apply (copy_assign_eq x x (Some a) a impl)|].
  destruct (replaced_lookup a (fresh (dom (heap σ))) impl (heap σ))
    as [Hnew Hold]; [eauto|done|].
  set (σ' := State _ _ _).
  assert (handles σ' !! x = Some (Some (fresh (dom (heap σ))))) as Hx'
    by apply lookup_insert_eq.
  repeat split; [exact Hx'|exact Hnew|exact Hold|].
  intros args.
  by rewrite (observe_invoke _ _ _ _ _ _ Hx' Hnew),
    (observe_invoke _ _ _ _ _ _ Hx Ha).
Qed.

(** ** The end of a handle *)

(** X3. Destroying a handle deletes the adapter it owns and nothing else:
    the handle is gone, its adapter is freed, the caller's objects are
    untouched, and every other handle keeps its adapter, unchanged. *)
Theorem destroy_frees_only_own_adapter x a σ :
  wf σ → handles σ !! x = Some (Some a) →
  ∃ σ', destroy x σ = Normal () σ'
    ∧ handles σ' !! x = None
    ∧ heap σ' !! a = None
    ∧ mem σ' = mem σ
    ∧ ∀ z, z ≠ x →
        handles σ' !! z = handles σ !! z
        ∧ ∀ b, handles σ !! z = Some (Some b) → heap σ' !! b = heap σ !! b.
Proof.
  intros [Hexcl Hlive] Hx. eexists. split.
  { apply (destroy_eq x (Some a)); [done|]. intros ? [= <-]. by eapply Hlive. }
  simpl. split; [apply lookup_delete_eq|]. split; [apply lookup_delete_eq|].
  split; [done|]. intros z Hz. split; [by rewrite lookup_delete_ne|].
  intros b Hb. rewrite lookup_delete_ne; [done|].
  intros ->. by apply Hz, (Hexcl z x b).
Qed.

(** X4. A handle constructed from a payload under a new name and then
    destroyed leaves no trace: the state is exactly the state before, with
    no adapter left behind. *)
Theorem construct_destroy_round_trip x cb σ :
  handles σ !! x = None →
  (construct x cb ≫= λ _, destroy x) σ = Normal () σ.
Proof.
  intros Hx. rewrite (bind_normal _ _ _ _ _ (construct_eq x cb σ)).
  rewrite (destroy_eq x (Some (fresh (dom (heap σ))))); simpl.
  - rewrite !delete_insert_id; [by destruct σ|apply fresh_addr_None|done].
  - apply lookup_insert_eq.
  - intros ? [= <-]. by rewrite lookup_insert_eq.
Qed.

(** ** Ownership along a program *)

Lemma copy_construct_not_holding x y σ :
  (∀ a, handles σ !! y ≠ Some (Some a)) → copy_construct x y σ = Undefined.
Proof.
  intros Hy. unfold copy_construct, set_impl_base, get_impl_base, undefined,
    mbind, M_bind. simpl.
  destruct (decide (x = y)) as [->|Hne].
  - by rewrite lookup_insert_eq.
  - rewrite lookup_insert_ne by done.
    destruct (handles σ !! y) as [[a|]|] eqn:Heq; [|done..].
    by destruct (Hy a).
Qed.

Lemma copy_assign_not_holding x y σ :
  (∀ a, handles σ !! y ≠ Some (Some a)) → copy_assign x y σ = Undefined.
Proof.
  intros Hy. rewrite copy_assign_unfold. unfold copy_assign_with, mbind, M_bind.
  by rewrite copy_construct_not_holding.
Qed.

Lemma assign_undeclared x cb σ :
  handles σ !! x = None → assign x cb σ = Undefined.
Proof.
  intros Hx. unfold assign, new_impl, unique_ptr_reset, get_impl_base,
    mbind, M_bind. simpl. by rewrite Hx.
Qed.

Lemma destroy_undeclared x σ :
  handles σ !! x = None → destroy x σ = Undefined.
Proof.
  intros Hx. unfold destroy, get_impl_base, mbind, M_bind. by rewrite Hx.
Qed.

Lemma invoke_undeclared x args σ :
  handles σ !! x = None → invoke deduce_call x args σ = Undefined.
Proof.
  intros Hx. unfold invoke, get_impl_base, mbind, M_bind. by rewrite Hx.
Qed.

(** A call that returns or raises was made through a handle that owns a
    live adapter, and rewrites that adapter alone. *)
Lemma invoke_shape x args σ σ' :
  (∃ r, invoke deduce_call x args σ = Normal r σ')
  ∨ (∃ e, invoke deduce_call x args σ = Raised e σ') →
  ∃ a impl impl',
    handles σ !! x = Some (Some a) ∧ heap σ !! a = Some impl
    ∧ handles σ' = handles σ ∧ heap σ' = <[a := impl']> (heap σ).
Proof.
  intros Hinv. destruct (handles σ !! x) as [[a|]|] eqn:Hx.
  - rewrite (invoke_holding _ _ _ _ _ Hx) in Hinv. unfold virtual_call in Hinv.
    destruct (heap σ !! a) as [impl|] eqn:Ha;
      [|by destruct Hinv as [[? [=]]|[? [=]]]].
    destruct (impl_call _ _ _ _) as [[[[r|e] impl'] m']|];
      destruct Hinv as [[? [=]]|[? [=]]]; subst; by exists a, impl, impl'.
  - rewrite (invoke_empty _ _ _ _ Hx) in Hinv.
    by destruct Hinv as [[? [=]]|[? [=]]].
  - rewrite (invoke_undeclared _ _ _ Hx) in Hinv.
    by destruct Hinv as [[? [=]]|[? [=]]].
Qed.

Lemma no_leak_replace x old impl σ :
  no_leak σ →
  (handles σ !! x = None ∧ old = None) ∨ handles σ !! x = Some old →
  no_leak (State (<[x := Some (fresh (dom (heap σ)))]> (handles σ))
             (free old (<[fresh (dom (heap σ)) := impl]> (heap σ))) (mem σ)).
Proof.
  intros Hleak Hold b Hb. simpl in *. set (a' := fresh (dom (heap σ))) in *.
  destruct (decide (b = a')) as [->|Hba].
  { exists x. apply lookup_insert_eq. }
  assert (is_Some (heap σ !! b) ∧ old ≠ Some b) as [Hin Hnot].
  { destruct old as [a1|]; simpl in Hb.
    - destruct (decide (a1 = b)) as [->|Hab].
      + rewrite lookup_delete_eq in Hb. by destruct Hb.
      + rewrite lookup_delete_ne, lookup_insert_ne in Hb by done.
        split; [done|congruence].
    - rewrite lookup_insert_ne in Hb by done. done. }
  destruct (Hleak b Hin) as [z Hz]. exists z.
  rewrite lookup_insert_ne; [done|]. intros <-.
  destruct Hold as [[Hx _]|Hx]; congruence.
Qed.

Lemma wf_destroyed x p σ :
  wf σ → handles σ !! x = Some p →
  wf (State (delete x (handles σ)) (free p (heap σ)) (mem σ)).
Proof.
  intros [Hexcl Hlive] Hx. split.
  - intros z w b Hz Hw. simpl in *.
    apply lookup_delete_Some in Hz as [Hzx Hz].
    apply lookup_delete_Some in Hw as [Hwx Hw]. by eapply Hexcl.
  - intros z b Hz. simpl in *. apply lookup_delete_Some in Hz as [Hzx Hz].
    destruct p as [a|]; simpl; [|by eapply Hlive].
    rewrite lookup_delete_ne; [by eapply Hlive|].
    intros ->. by apply Hzx, (Hexcl x z b).
Qed.

Lemma no_leak_destroyed x p σ :
  no_leak σ → handles σ !! x = Some p →
  no_leak (State (delete x (handles σ)) (free p (heap σ)) (mem σ)).
Proof.
  intros Hleak Hx b Hb. simpl in *.
  assert (is_Some (heap σ !! b) ∧ p ≠ Some b) as [Hin Hnot].
  { destruct p as [a|]; simpl in Hb; [|done].
    destruct (decide (a = b)) as [->|Hab].
    - rewrite lookup_delete_eq in Hb. by destruct Hb.
    - rewrite lookup_delete_ne in Hb by done. split; [done|congruence]. }
  destruct (Hleak b Hin) as [z Hz]. exists z.
  rewrite lookup_delete_ne; [done|]. intros <-. congruence.
Qed.

Lemma step_keeps_ownership σ σ' :
  step deduce_call σ σ' → wf σ ∧ no_leak σ → wf σ' ∧ no_leak σ'.
Proof.
  intros Hstep [Hwf Hleak].
  destruct Hstep as [x σ σ' Hx Hop|x cb σ σ' Hx Hop|x y σ σ' Hx Hop
    |x cb σ σ' Hop|x y σ σ' [old Hx] Hop|x args r σ σ' Hop|x args e σ σ' Hop
    |x σ σ' Hop|l v σ].
  - injection Hop as <-. split; [by apply wf_default_construct|].
    intros b Hb. destruct (Hleak b Hb) as [z Hz]. exists z. simpl.
    rewrite lookup_insert_ne; [done|congruence].
  - rewrite construct_eq in Hop. injection Hop as <-. split.
    + apply (wf_replace x None); auto.
    + apply (no_leak_replace x None); auto.
  - destruct (handles σ !! y) as [[a|]|] eqn:Hy;
      [|by rewrite copy_construct_not_holding in Hop; [|congruence]..].
    destruct (proj2 Hwf y a Hy) as [impl Ha].
    rewrite (copy_construct_eq x y a impl) in Hop; [|congruence|done..].
    injection Hop as <-. split.
    + apply (wf_replace x None); auto.
    + apply (no_leak_replace x None); auto.
  - destruct (handles σ !! x) as [old|] eqn:Hx;
      [|by rewrite assign_undeclared in Hop].
    rewrite (assign_eq x old) in Hop;
      [|done|intros b ->; by eapply (proj2 Hwf)].
    injection Hop as <-. split.
    + apply (wf_replace x old); auto.
    + apply (no_leak_replace x old); auto.
  - destruct (handles σ !! y) as [[a|]|] eqn:Hy;
      [|by rewrite copy_assign_not_holding in Hop; [|congruence]..].
    destruct (proj2 Hwf y a Hy) as [impl Ha].
    rewrite (copy_assign_eq x y old a impl) in Hop;
      [|done|intros b ->; by eapply (proj2 Hwf)|done..].
    injection Hop as <-. split.
    + apply (wf_replace x old); auto.
    + apply (no_leak_replace x old); auto.
  - split; [eapply wf_invoke; eauto|].
    destruct (invoke_shape x args σ σ') as (a & impl & impl' & Hx & Ha & Hh & Hheap);
      [eauto|].
    intros b Hb. rewrite Hh. rewrite Hheap in Hb.
    apply lookup_insert_is_Some in Hb as [->|[_ Hb]]; [eauto|by apply Hleak].
  - split; [eapply wf_invoke; eauto|].
    destruct (invoke_shape x args σ σ') as (a & impl & impl' & Hx & Ha & Hh & Hheap);
      [eauto|].
    intros b Hb. rewrite Hh. rewrite Hheap in Hb.
    apply lookup_insert_is_Some in Hb as [->|[_ Hb]]; [eauto|by apply Hleak].
  - destruct (handles σ !! x) as [p|] eqn:Hx;
      [|by rewrite destroy_undeclared in Hop].
    rewrite (destroy_eq x p) in Hop;
      [|done|intros b ->; by eapply (proj2 Hwf)].
    injection Hop as <-. split.
    + by apply wf_destroyed.
    + by apply no_leak_destroyed.
  - split; [by destruct Hwf|done].
Qed.

Lemma reachable_keeps_ownership σ :
  reachable deduce_call σ → wf σ ∧ no_leak σ.
Proof.
  intros [m Hrtc]. revert σ Hrtc. apply rtc_ind_r.
  - split; [apply wf_initial|]. intros b [impl Hb]. simpl in Hb.
    by rewrite lookup_empty in Hb.
  - intros σ1 σ2 _ Hstep IH. by eapply step_keeps_ownership.
Qed.

(** X5. Ownership is exclusive along every program: in a state reached
    from the start by declarations, assignments, calls, destructions and
    writes of the calling code, no two handles own the same adapter and every
    non-empty handle owns a live adapter. *)
Theorem reachable_exclusive_ownership σ :
  reachable deduce_call σ → wf σ.
Proof. intros Hreach. by apply reachable_keeps_ownership. Qed.

(** X6. No adapter is leaked along a program: in every reachable state,
    each live adapter is owned by a handle; when no handle is left, no
    adapter is left. *)
Theorem reachable_no_leak σ :
  reachable deduce_call σ →
  no_leak σ ∧ (handles σ = ∅ → heap σ = ∅).
Proof.
  intros Hreach. destruct (reachable_keeps_ownership σ Hreach) as [_ Hleak].
  split; [done|]. intros Hempty. apply map_empty. intros b.
  destruct (heap σ !! b) as [impl|] eqn:Hb; [|done].
  destruct (Hleak b) as [z Hz]; [eauto|].
  by rewrite Hempty, lookup_empty in Hz.
Qed.

(** X7. Along a program no handle operation frees twice or uses a freed
    adapter: in every reachable state, assigning a callable to a declared
    handle, copy-assigning from a non-empty handle into it, and destroying
    it all end normally. *)
Theorem reachable_operations_defined x σ :
  reachable deduce_call σ → is_Some (handles σ !! x) →
  (∀ cb, ∃ σ', assign x cb σ = Normal () σ')
  ∧ (∀ y a, handles σ !! y = Some (Some a) →
       ∃ σ', copy_assign x y σ = Normal () σ')
  ∧ (∃ σ', destroy x σ = Normal () σ').
Proof.
  intros Hreach [old Hx].
  destruct (reachable_keeps_ownership σ Hreach) as [[Hexcl Hlive] _].
  assert (live old (heap σ)) as Hold by (intros b ->; by eapply Hlive).
  split; [|split].
  - intros cb. eexists. by apply (assign_eq x old).
  - intros y a Hy. destruct (Hlive y a Hy) as [impl Ha].
    eexists. by apply (copy_assign_eq x y old a impl).
  - eexists. by apply (destroy_eq x old).
Qed.

(** ** What a call leaves alone *)

(** X8. A call through a handle, whether it returns or raises, empties no
    handle and deletes no adapter: every handle reports after the call what
    it reported before, and the called handle still owns its adapter, at the
    same address, holding the same function or member function, resp. the
    functor with the members its call left; no other adapter is touched. *)
Theorem invoke_keeps_emptiness x args σ σ' :
  (∃ r, invoke deduce_call x args σ = Normal r σ')
  ∨ (∃ e, invoke deduce_call x args σ = Raised e σ') →
  (∃ a impl impl',
      handles σ !! x = Some (Some a) ∧ heap σ !! a = Some impl
      ∧ handles σ' !! x = Some (Some a) ∧ heap σ' !! a = Some impl'
      ∧ heap σ' = <[a := impl']> (heap σ)
      ∧ match impl with
        | func_impl_fn _ | func_impl_member _ => impl' = impl
        | func_impl_functor F obj =>
            impl' = func_impl_functor F (fcall F obj args (mem σ)).1.2
        end)
  ∧ operator_bool x σ' = Normal true σ'
  ∧ ∀ z t, operator_bool z σ = Normal t σ → operator_bool z σ' = Normal t σ'.
Proof.
  intros Hinv.
  destruct (invoke_shape x args σ σ' Hinv)
    as (a & impl & impl0 & Hx & Ha & Hh & _).
  assert (handles σ' !! x = Some (Some a)) as Hx' by by rewrite Hh.
  split; [|split].
  - exists a, impl. rewrite (invoke_eq _ _ _ _ _ _ Hx Ha) in Hinv.
    destruct impl as [f|F obj|pm]; simpl in Hinv.
    + destruct (f args (mem σ)) as [[r|e] m'];
        destruct Hinv as [[? [=]]|[? [=]]]; subst; simpl;
        (eexists; split_and!;
           [done|done|done|apply lookup_insert_eq|done|done]).
    + destruct (fcall F obj args (mem σ)) as [[[r|e] obj'] m'];
        destruct Hinv as [[? [=]]|[? [=]]]; subst; simpl;
        (eexists; split_and!;
           [done|done|done|apply lookup_insert_eq|done|done]).
    + destruct (deduce_call args) as [[recv params]|];
        [|by destruct Hinv as [[? [=]]|[? [=]]]].
      destruct (call pm recv params (mem σ)) as [[[r|e] m']|];
        destruct Hinv as [[? [=]]|[? [=]]]; subst; simpl;
        (eexists; split_and!;
           [done|done|done|apply lookup_insert_eq|done|done]).
  - by apply (operator_bool_holding x a).
  - intros z t. unfold operator_bool, get_impl_base, mbind, M_bind, mret, M_ret.
    rewrite Hh. destruct (handles σ !! z); [|done]. by intros [= <-].
Qed.

(** X9. Function pointers and member function pointers are stateless
    payloads: a call through a handle that wraps one leaves every adapter,
    its own included, exactly as it was, and every handle as it was. *)
Theorem pointer_payload_call_keeps_heap x a impl args σ σ' :
  handles σ !! x = Some (Some a) → heap σ !! a = Some impl →
  (∃ f, impl = func_impl_fn f) ∨ (∃ pm, impl = func_impl_member pm) →
  (∃ r, invoke deduce_call x args σ = Normal r σ')
  ∨ (∃ e, invoke deduce_call x args σ = Raised e σ') →
  heap σ' = heap σ ∧ handles σ' = handles σ.
Proof.
  intros Hx Ha Hkind Hinv. rewrite (invoke_eq _ _ _ _ _ _ Hx Ha) in Hinv.
  assert (∀ r impl' m', impl_call deduce_call impl args (mem σ)
                        = Some (r, impl', m') → impl' = impl) as Hsame.
  { intros r impl' m'. destruct Hkind as [[f ->]|[pm ->]]; simpl.
    - destruct (f args (mem σ)). by intros [= _ <- _].
    - destruct (deduce_call args) as [[recv params]|]; [|done].
      destruct (call pm recv params (mem σ)) as [[r0 m0]|]; [|done].
      by intros [= _ <- _]. }
  destruct (impl_call deduce_call impl args (mem σ))
    as [[[[r|e] impl'] m']|] eqn:Hcall;
    destruct Hinv as [[? [=]]|[? [=]]]; subst; simpl;
    rewrite (Hsame _ _ _ eq_refl), insert_id by done; done.
Qed.

(** X10. A functor wrapped in a handle keeps its members from call to
    call: any sequence of calls through the handle yields, call by call, what
    the same calls yield on the functor object itself. *)
Theorem functor_calls_through_handle (F : functor) argss : ∀ obj x a σ,
  handles σ !! x = Some (Some a) →
  heap σ !! a = Some (func_impl_functor F obj) →
  invoke_all deduce_call x argss σ
  = Some <$> functor_calls F obj argss (mem σ).
Proof.
  induction argss as [|args rest IH]; intros obj x a σ Hx Ha; [done|].
  simpl. rewrite (invoke_eq _ _ _ _ _ _ Hx Ha). simpl.
  destruct (fcall F obj args (mem σ)) as [[[r|e] obj'] m']; simpl;
    (f_equal; apply (IH obj' x a); simpl; [done|apply lookup_insert_eq]).
Qed.

(** X12. With the object itself as receiver (an lvalue, taken by value by
    [call]), a member function that writes only its receiver has no effect
    on the caller: the call through the handle yields what the member
    function yields on a copy of the receiver, with the receiver's members,
    and leaves every object of the caller, the receiver included, as it
    was. *)
Theorem object_receiver_call_has_no_effect (pm : mem_fn_ptr) x a args l v params σ :
  writes_only_receiver pm →
  handles σ !! x = Some (Some a) → heap σ !! a = Some (func_impl_member pm) →
  deduce_call args = Some (RecvObj l, params) → mem σ !! l = Some v →
  observe (invoke deduce_call x args σ)
  = Some ((direct_call pm (RecvObj (fresh (dom (mem σ)))) params
             (<[fresh (dom (mem σ)) := v]> (mem σ))).1,
          mem σ).
Proof.
  intros Hpm Hx Ha Hargs Hl.
  rewrite (member_call_object_receiver _ pm x a args l v params σ) by done.
  simpl. do 2 f_equal. apply map_eq. intros k.
  set (obj := fresh (dom (mem σ))).
  assert (mem σ !! obj = None) as Hobj by apply not_elem_of_dom, is_fresh.
  destruct (decide (k = obj)) as [->|Hk].
  - by rewrite lookup_delete_eq.
  - by rewrite lookup_delete_ne, Hpm, lookup_insert_ne.
Qed.

(** X18. Handles are independent under exclusive ownership: a call
    through one handle, whether it returns or raises, leaves every other
    handle with the adapter it owned, unchanged, whatever the payloads. *)
Theorem invoke_leaves_other_handles x z b args σ σ' :
  wf σ → x ≠ z → handles σ !! z = Some (Some b) →
  (∃ r, invoke deduce_call x args σ = Normal r σ')
  ∨ (∃ e, invoke deduce_call x args σ = Raised e σ') →
  handles σ' !! z = Some (Some b) ∧ heap σ' !! b = heap σ !! b.
Proof.
  intros [Hexcl _] Hne Hz Hinv.
  destruct (invoke_shape x args σ σ' Hinv)
    as (a & impl & impl' & Hx & Ha & Hh & Hheap).
  rewrite Hh, Hheap. split; [done|].
  rewrite lookup_insert_ne; [done|]. intros ->. by apply Hne, (Hexcl x z b).
Qed.

(** ** The assignment body and the emptiness query *)

(** X13. The body of [operator=(Function other)] moves ownership: the
    target ends up owning exactly what the parameter owned (nothing, if the
    parameter was empty), the parameter is left empty, and the adapter the
    target owned before is deleted. *)
Theorem assign_body_transfers_ownership x other old p σ :
  x ≠ other → handles σ !! other = Some p →
  handles σ !! x = Some old → live old (heap σ) →
  ∃ σ', assign_body x other σ = Normal () σ'
    ∧ handles σ' !! x = Some p
    ∧ handles σ' !! other = Some None
    ∧ heap σ' = free old (heap σ)
    ∧ mem σ' = mem σ.
Proof.
  intros Hne Ho Hx Hlive. eexists.
  split; [by apply (assign_body_eq x other old p)|]. simpl.
  split; [apply lookup_insert_eq|]. split; [|done].
  rewrite lookup_insert_ne by done. apply lookup_insert_eq.
Qed.

(** X14. The emptiness query guards the call: for a declared handle,
    [operator bool] leaves the state as it is and answers [true] exactly when
    a call through the handle does not fail the assertion. *)
Theorem operator_bool_guards_invoke x args σ :
  is_Some (handles σ !! x) →
  ∃ t, operator_bool x σ = Normal t σ
       ∧ (t = true ↔ invoke deduce_call x args σ ≠ Aborted).
Proof.
  intros [p Hx]. exists (bool_decide (p ≠ None)). split.
  - unfold operator_bool.
    by rewrite (bind_normal _ _ _ _ _ (get_impl_base_eq _ _ _ Hx)).
  - destruct p as [a|].
    + split; [|done]. intros _. rewrite (invoke_holding _ _ _ _ _ Hx).
      apply virtual_call_not_aborted.
    + rewrite (invoke_empty _ _ _ _ Hx). split; [done|]. by intros [].
Qed.

End MoreProperties.

(** * Properties of the membership test *)

Section HasTypeProperties.
Context {T : Type} `{EqDecision T} (decay : T → T).

(** X15. [has_type<F, list<...>>::value] is membership up to decay: it is
    true exactly when some element of the list is [F] or decays to [F]. *)
Theorem has_type_value_spec (F : T) (l : list T) :
  has_type_value decay F l = true ↔ ∃ H, H ∈ l ∧ (H = F ∨ decay H = F).
Proof.
  induction l as [|H Ts IH]; simpl.
  - split; [done|]. intros (H & Hin & _). by apply elem_of_nil in Hin.
  - destruct (decide (H = F)) as [->|Hne].
    { split; [|done]. intros _. exists F. split; [left|by left]. }
    destruct (decide (F = decay H)) as [->|Hnd].
    { split; [|done]. intros _. exists H. split; [left|by right]. }
    rewrite IH. split.
    + intros (H' & Hin & Hor). exists H'. split; [by right|done].
    + intros (H' & Hin & Hor). apply elem_of_cons in Hin as [->|Hin].
      * destruct Hor; congruence.
      * by exists H'.
Qed.

(** X19. Over a list of types that are their own decay (class types, as
    in the lists of the file), [has_type<F, list<...>>::value] is plain
    membership. *)
Theorem has_type_value_decayed_list (F : T) (l : list T) :
  (∀ H, H ∈ l → decay H = H) →
  has_type_value decay F l = true ↔ F ∈ l.
Proof.
  induction l as [|H Ts IH]; intros Hdecay; simpl.
  - split; [done|]. intros Hin. by apply elem_of_nil in Hin.
  - assert (decay H = H) as HH by (apply Hdecay; left).
    destruct (decide (H = F)) as [->|Hne]; [split; [left|done]|].
    destruct (decide (F = decay H)) as [->|Hnd]; [congruence|].
    rewrite IH by (intros H' Hin; apply Hdecay; by right).
    rewrite elem_of_cons. split; [by right|]. by intros [->|].
Qed.

Lemma has_type_value_member (F : T) (l : list T) :
  F ∈ l → has_type_value decay F l = true.
Proof.
  induction l as [|H Ts IH]; intros Hin; simpl.
  - by apply elem_of_nil in Hin.
  - destruct (decide (H = F)) as [|Hne]; [done|].
    destruct (decide (F = decay H)); [done|].
    apply IH. apply elem_of_cons in Hin as [->|]; done.
Qed.

(** X16. [has_type<F, list<...>>::type] looks at the head of the list
    only: it is [std::true_type] exactly when the first element is [F].  It
    never says yes where [value] says no, but for an [F] that occurs later
    in the list [value] is true and [type] is [std::false_type]. *)
Theorem has_type_type_sees_only_head (F : T) (l : list T) :
  (has_type_type F l = true ↔ head l = Some F)
  ∧ (has_type_type F l = true → has_type_value decay F l = true)
  ∧ (∀ H Ts, l = H :: Ts → H ≠ F → F ∈ Ts →
       has_type_value decay F l = true ∧ has_type_type F l = false).
Proof.
  split; [|split].
  - destruct l as [|H Ts]; simpl; [done|].
    destruct (decide (H = F)) as [->|Hne]; [done|].
    split; [done|]. by intros [= ->].
  - destruct l as [|H Ts]; simpl; [done|].
    by destruct (decide (H = F)).
  - intros H Ts -> Hne Hin. split.
    + apply has_type_value_member. by right.
    + simpl. by destruct (decide (H = F)).
Qed.
End HasTypeProperties.

(** X17. [Base::on_modify_command] accepts the first available command
    only: it prints nothing for [CommandA] and prints [Not implemented] for
    every other command type, also for [CommandB] and [SomeCommandType],
    which [has_type<...>::value] reports as available. *)
Theorem on_modify_command_accepts_head_only (t : Commands.command) :
  (Commands.on_modify_command t = [] ↔ t = Commands.CommandA)
  ∧ (t ≠ Commands.CommandA →
       Commands.on_modify_command t = ["Not implemented"])
  ∧ (has_type_value Commands.decay t Commands.AvailableCommmands = true
     ↔ t ≠ Commands.CommandC).
Proof. destruct t; repeat split; done. Qed.

(** * The further properties on the demonstration code *)

Lemma f1_f2_reachable : reachable no_receiver f1_f2.
Proof.
  exists ∅. rewrite f1_f2_eq.
  eapply rtc_l.
  { apply (step_default_construct _ "f1"); [reflexivity|]. vm_compute. reflexivity. }
  eapply rtc_l.
  { apply (step_assign _ "f1" (FnPtr foo_ex1)). vm_compute. reflexivity. }
  apply rtc_once.
  apply (step_construct _ "f2" (FnPtr foo_ex2)); vm_compute; reflexivity.
Qed.

Lemma copy_behaves_like_source_witness :
  ∃ σ', copy_construct "g" "f" f_large = Normal () σ'
    ∧ operator_bool "g" σ' = Normal true σ'
    ∧ (∀ args, observe (invoke no_receiver "g" args σ')
               = observe (invoke no_receiver "f" args σ'))
    ∧ (∀ argss, invoke_all no_receiver "g" argss σ'
                = invoke_all no_receiver "f" argss σ').
Proof.
  apply (copy_behaves_like_source no_receiver "f" "g" 0
           (func_impl_functor LargeFunctor "LargeFunctorString") f_large).
  - discriminate.
  - vm_compute. reflexivity.
  - vm_compute. reflexivity.
Defined.

Lemma self_assignment_is_safe_witness :
  ∃ a' σ', copy_assign "f2" "f2" f1_f2 = Normal () σ'
    ∧ handles σ' !! "f2" = Some (Some a')
    ∧ heap σ' !! a' = Some (func_impl_fn foo_ex2)
    ∧ heap σ' !! 1 = None
    ∧ ∀ args, observe (invoke no_receiver "f2" args σ')
              = observe (invoke no_receiver "f2" args f1_f2).
Proof.
  apply (self_assignment_is_safe no_receiver "f2" 1 (func_impl_fn foo_ex2) f1_f2);
    vm_compute; reflexivity.
Defined.

Lemma destroy_frees_only_own_adapter_witness :
  ∃ σ', destroy "f1" f1_f2 = Normal () σ'
    ∧ handles σ' !! "f1" = None
    ∧ heap σ' !! 0 = None
    ∧ mem σ' = mem f1_f2
    ∧ ∀ z, z ≠ "f1" →
        handles σ' !! z = handles f1_f2 !! z
        ∧ ∀ b, handles f1_f2 !! z = Some (Some b) →
               heap σ' !! b = heap f1_f2 !! b.
Proof.
  apply (destroy_frees_only_own_adapter "f1" 0 f1_f2).
  - exact wf_f1_f2.
  - vm_compute. reflexivity.
Defined.

Lemma construct_destroy_round_trip_witness :
  (construct "f" (FnPtr foo_ex1) ≫= λ _, destroy "f") f1_f2 = Normal () f1_f2.
Proof.
  apply (construct_destroy_round_trip "f" (FnPtr foo_ex1) f1_f2).
  vm_compute. reflexivity.
Defined.

Lemma reachable_exclusive_ownership_witness : wf f1_f2.
Proof.
  apply (reachable_exclusive_ownership no_receiver f1_f2), f1_f2_reachable.
Defined.

Lemma reachable_no_leak_witness :
  no_leak f1_f2 ∧ (handles f1_f2 = ∅ → heap f1_f2 = ∅).
Proof. apply (reachable_no_leak no_receiver f1_f2), f1_f2_reachable. Defined.

Lemma reachable_operations_defined_witness :
  (∀ cb, ∃ σ', assign "f1" cb f1_f2 = Normal () σ')
  ∧ (∀ y a, handles f1_f2 !! y = Some (Some a) →
       ∃ σ', copy_assign "f1" y f1_f2 = Normal () σ')
  ∧ (∃ σ', destroy "f1" f1_f2 = Normal () σ').
Proof.
  apply (reachable_operations_defined no_receiver "f1" f1_f2).
  - exact f1_f2_reachable.
  - eexists. vm_compute. reflexivity.
Defined.

Lemma invoke_keeps_emptiness_witness :
  (∃ a impl impl',
      handles f_thrower !! "f" = Some (Some a)
      ∧ heap f_thrower !! a = Some impl
      ∧ handles (after (invoke no_receiver "f" ()) f_thrower) !! "f"
        = Some (Some a)
      ∧ heap (after (invoke no_receiver "f" ()) f_thrower) !! a = Some impl'
      ∧ heap (after (invoke no_receiver "f" ()) f_thrower)
        = <[a := impl']> (heap f_thrower)
      ∧ match impl with
        | func_impl_fn _ | func_impl_member _ => impl' = impl
        | func_impl_functor F obj =>
            impl' = func_impl_functor F (fcall F obj () (mem f_thrower)).1.2
        end)
  ∧ operator_bool "f" (after (invoke no_receiver "f" ()) f_thrower)
    = Normal true (after (invoke no_receiver "f" ()) f_thrower)
  ∧ ∀ z t, operator_bool z f_thrower = Normal t f_thrower →
      operator_bool z (after (invoke no_receiver "f" ()) f_thrower)
      = Normal t (after (invoke no_receiver "f" ()) f_thrower).
Proof.
  apply (invoke_keeps_emptiness no_receiver "f" () f_thrower).
  right. exists "boom". vm_compute. reflexivity.
Defined.

Lemma pointer_payload_call_keeps_heap_witness :
  heap (after (invoke no_receiver "f" 0) f_foo_void) = heap f_foo_void
  ∧ handles (after (invoke no_receiver "f" 0) f_foo_void) = handles f_foo_void.
Proof.
  apply (pointer_payload_call_keeps_heap no_receiver "f" 0
           (func_impl_fn foo_void) 0 f_foo_void).
  - vm_compute. reflexivity.
  - vm_compute. reflexivity.
  - left. by eexists.
  - left. exists (). vm_compute. reflexivity.
Defined.

Lemma functor_calls_through_handle_witness :
  invoke_all no_receiver "f" [(); ()] f_large
  = Some <$> functor_calls LargeFunctor "LargeFunctorString" [(); ()]
               (mem f_large).
Proof.
  apply (functor_calls_through_handle no_receiver LargeFunctor [(); ()]
           "LargeFunctorString" "f" 0 f_large); vm_compute; reflexivity.
Defined.

Lemma member_call_pointer_receiver_witness :
  observe (invoke receiver_only "f" (RecvPtr 0) f_counter)
  = Some (direct_call Counter_inc (RecvPtr 0) () (mem f_counter))
  ∧ direct_call Counter_inc (RecvPtr 0) () (mem f_counter)
    = (PReturn (), {[0 := 1%Z]}).
Proof.
  split; [|vm_compute; reflexivity].
  apply (member_call_pointer_receiver receiver_only Counter_inc "f" 0
           (RecvPtr 0) 0 () f_counter); vm_compute; reflexivity.
Defined.

Lemma Counter_inc_writes_only_receiver : writes_only_receiver Counter_inc.
Proof. intros this params m l Hl. simpl. by rewrite lookup_alter_ne. Qed.

Lemma Counter_next_writes_only_receiver : writes_only_receiver Counter_next.
Proof.
  intros this params m l Hl. unfold Counter_next.
  destruct (m !! this); simpl; [by rewrite lookup_alter_ne|done].
Qed.

Lemma object_receiver_call_has_no_effect_witness :
  observe (invoke receiver_only "f" (RecvObj 0) f_counter_next)
  = Some ((direct_call Counter_next (RecvObj (fresh (dom (mem f_counter_next))))
             () (<[fresh (dom (mem f_counter_next)) := 5%Z]>
                   (mem f_counter_next))).1,
          mem f_counter_next)
  ∧ (direct_call Counter_next (RecvObj (fresh (dom (mem f_counter_next))))
       () (<[fresh (dom (mem f_counter_next)) := 5%Z]>
             (mem f_counter_next))).1 = PReturn 6%Z
  ∧ mem f_counter_next = {[0 := 5%Z]}.
Proof.
  split; [|split; vm_compute; reflexivity].
  apply (object_receiver_call_has_no_effect receiver_only Counter_next "f" 0
           (RecvObj 0) 0 5%Z () f_counter_next).
  - exact Counter_next_writes_only_receiver.
  - vm_compute. reflexivity.
  - vm_compute. reflexivity.
  - reflexivity.
  - vm_compute. reflexivity.
Defined.

Lemma assign_body_transfers_ownership_witness :
  ∃ σ', assign_body "f1" "f2" f1_f2 = Normal () σ'
    ∧ handles σ' !! "f1" = Some (Some 1)
    ∧ handles σ' !! "f2" = Some None
    ∧ heap σ' = free (Some 0) (heap f1_f2)
    ∧ mem σ' = mem f1_f2.
Proof.
  apply (assign_body_transfers_ownership "f1" "f2" (Some 0) (Some 1) f1_f2).
  - discriminate.
  - vm_compute. reflexivity.
  - vm_compute. reflexivity.
  - intros b [= <-]. eexists. vm_compute. reflexivity.
Defined.

Lemma operator_bool_guards_invoke_witness :
  ∃ t, operator_bool "h" two_empty = Normal t two_empty
       ∧ (t = true ↔ invoke no_receiver "h" () two_empty ≠ Aborted).
Proof.
  apply (operator_bool_guards_invoke no_receiver "h" () two_empty).
  eexists. vm_compute. reflexivity.
Defined.

Lemma has_type_type_sees_only_head_witness :
  has_type_value Commands.decay Commands.CommandB Commands.AvailableCommmands
    = true
  ∧ has_type_type Commands.CommandB Commands.AvailableCommmands = false.
Proof.
  destruct (has_type_type_sees_only_head Commands.decay Commands.CommandB
              Commands.AvailableCommmands) as (_ & _ & Hlater).
  apply (Hlater Commands.CommandA [Commands.CommandB; Commands.SomeCommandType]).
  - reflexivity.
  - discriminate.
  - left.
Defined.

Lemma on_modify_command_accepts_head_only_witness :
  Commands.on_modify_command Commands.CommandB = ["Not implemented"].
Proof.
  destruct (on_modify_command_accepts_head_only Commands.CommandB)
    as (_ & Hother & _).
  apply Hother. discriminate.
Defined.

Lemma invoke_leaves_other_handles_witness :
  handles (after (invoke no_receiver "f1" ()) f1_f2) !! "f2" = Some (Some 1)
  ∧ heap (after (invoke no_receiver "f1" ()) f1_f2) !! 1 = heap f1_f2 !! 1.
Proof.
  apply (invoke_leaves_other_handles no_receiver "f1" "f2" 1 () f1_f2).
  - exact wf_f1_f2.
  - discriminate.
  - vm_compute. reflexivity.
  - left. exists 42%Z. vm_compute. reflexivity.
Defined.

Lemma has_type_value_decayed_list_witness :
  has_type_value Commands.decay Commands.SomeCommandType
    Commands.AvailableCommmands = true
  ↔ Commands.SomeCommandType ∈ Commands.AvailableCommmands.
Proof.
  apply (has_type_value_decayed_list Commands.decay Commands.SomeCommandType
           Commands.AvailableCommmands).
  intros H _. reflexivity.
Defined.
